(** * AnekaZoo: the in-memory animal store and its HTTP handlers

    A shallow embedding of [main.go]: the [Animal] record, the
    [InMemoryAnimalStore] with its six methods, the [AnimalStore] interface
    the handlers are written against, and the five handlers. *)

From stdpp Require Import gmap strings list fin_maps pretty.

Open Scope Z_scope.

(** ** Go's [int]

    [int] is a signed 64-bit integer on the platforms the service is built
    for; arithmetic wraps around silently. Only [nextID++] does arithmetic. *)
Module GoInt.

Definition bits : Z := 64.
Definition min_int : Z := - 2 ^ (bits - 1).
Definition max_int : Z := 2 ^ (bits - 1) - 1.

Definition in_range (z : Z) : Prop := min_int ≤ z ≤ max_int.

(** The value an [int] holds after a computation whose exact result is [z]. *)
Definition wrap (z : Z) : Z := (z - min_int) mod 2 ^ bits + min_int.

(** [x++] *)
Definition incr (x : Z) : Z := wrap (x + 1).

End GoInt.

(** ** Data model *)

(** [type Animal struct { ID int; Name string; Class string; Legs int }] *)
Record Animal : Type := mkAnimal {
  ID : Z;
  Name : string;
  Class_ : string;
  Legs : Z
}.

Global Instance Animal_eq_dec : EqDecision Animal.
Proof. solve_decision. Defined.

(** [animal.ID = id] on a local copy of the struct. *)
Definition set_ID (animal : Animal) (id : Z) : Animal :=
  {| ID := id; Name := Name animal; Class_ := Class_ animal; Legs := Legs animal |}.

(** The errors the store builds with [fmt.Errorf]; each constructor stands
    for one format string and carries its [%d] argument. *)
Inductive error : Type :=
| ErrNoAnimals                       (* "no animals found" *)
| ErrNotFound (id : Z)               (* "animal with ID %d not found" *)
| ErrAlreadyExists (id : Z)          (* "animal with ID %d already exists" *)
| ErrNotFoundForUpdate (id : Z)      (* "animal with ID %d not found for update" *)
| ErrNotFoundForDeletion (id : Z).   (* "animal with ID %d not found for deletion" *)

Global Instance error_eq_dec : EqDecision error.
Proof. solve_decision. Defined.

(** [err.Error()] *)
Definition Error (e : error) : string :=
  match e with
  | ErrNoAnimals => "no animals found"
  | ErrNotFound id => "animal with ID " +:+ pretty id +:+ " not found"
  | ErrAlreadyExists id => "animal with ID " +:+ pretty id +:+ " already exists"
  | ErrNotFoundForUpdate id =>
      "animal with ID " +:+ pretty id +:+ " not found for update"
  | ErrNotFoundForDeletion id =>
      "animal with ID " +:+ pretty id +:+ " not found for deletion"
  end.

(** A Go [(T, error)] pair of which exactly one side is set. *)
Inductive result (A : Type) : Type :=
| Ok (a : A)
| Err (e : error).
Arguments Ok {A} a.
Arguments Err {A} e.

(** ** State passing

    Every method has a pointer receiver; a call is a function from the
    receiver's state to the returned value and the state it leaves. *)
Definition State (S A : Type) : Type := S → A * S.

Definition ret {S A} (a : A) : State S A := λ s, (a, s).

Definition bind {S A B} (m : State S A) (k : A → State S B) : State S B :=
  λ s, let '(a, s') := m s in k a s'.

Notation "'call' x <- m ;; k" := (bind m (λ x, k))
  (at level 10, x name, m at level 99, k at level 200,
   format "'[v' 'call'  x  <-  m  ;;  '/' k ']'").

(** ** The store *)

(** [type InMemoryAnimalStore struct { animals map[int]Animal; mu
    sync.Mutex; nextID int }]. Every method takes [mu] on entry and releases
    it on return, so a method call is one atomic step on the two data
    fields; [mu] itself is not represented. *)
Record InMemoryAnimalStore : Type := mkStore {
  animals : gmap Z Animal;
  nextID : Z
}.

Definition NewInMemoryAnimalStore : InMemoryAnimalStore :=
  {| animals := ∅; nextID := 1 |}.

(** The order in which [for _, animal := range s.animals] visits the map is
    chosen by the Go runtime. It is a parameter of [GetAllAnimals]; whatever
    the runtime does, it visits every entry exactly once. *)
Definition range_order : Type := gmap Z Animal → list (Z * Animal).

Definition range_visits_all (range : range_order) : Prop :=
  ∀ m, range m ≡ₚ map_to_list m.

Definition GetAllAnimals (range : range_order)
  : State InMemoryAnimalStore (result (list Animal)) :=
  λ s,
    if decide (size (animals s) = 0%nat) then (Err ErrNoAnimals, s)
    else (Ok (foldl (λ all kv, all ++ [kv.2]) [] (range (animals s))), s).

Definition GetAnimalByID (id : Z)
  : State InMemoryAnimalStore (result Animal) :=
  λ s,
    match animals s !! id with
    | None => (Err (ErrNotFound id), s)
    | Some animal => (Ok animal, s)
    end.

Definition CreateAnimal (animal : Animal)
  : State InMemoryAnimalStore (option error) :=
  λ s,
    if decide (ID animal = 0) then
      let animal' := set_ID animal (nextID s) in
      (None, {| animals := <[ID animal' := animal']> (animals s);
                nextID := GoInt.incr (nextID s) |})
    else
      match animals s !! ID animal with
      | Some _ => (Some (ErrAlreadyExists (ID animal)), s)
      | None =>
          (None, {| animals := <[ID animal := animal]> (animals s);
                    nextID := nextID s |})
      end.

Definition UpdateAnimal (id : Z) (animal : Animal)
  : State InMemoryAnimalStore (option error) :=
  λ s,
    match animals s !! id with
    | None => (Some (ErrNotFoundForUpdate id), s)
    | Some _ =>
        let animal' := set_ID animal id in
        (None, {| animals := <[id := animal']> (animals s);
                  nextID := nextID s |})
    end.

Definition UpsertAnimal (id : Z) (animal : Animal)
  : State InMemoryAnimalStore (option error) :=
  λ s,
    let animal' := set_ID animal id in
    (None, {| animals := <[id := animal']> (animals s); nextID := nextID s |}).

Definition DeleteAnimal (id : Z)
  : State InMemoryAnimalStore (option error) :=
  λ s,
    match animals s !! id with
    | None => (Some (ErrNotFoundForDeletion id), s)
    | Some _ =>
        (None, {| animals := delete id (animals s); nextID := nextID s |})
    end.

(** ** The interface the handlers use *)

(** [type AnimalStore interface { ... }] *)
Class AnimalStore (S : Type) : Type := {
  store_GetAllAnimals : State S (result (list Animal));
  store_GetAnimalByID : Z → State S (result Animal);
  store_CreateAnimal : Animal → State S (option error);
  store_UpdateAnimal : Z → Animal → State S (option error);
  store_UpsertAnimal : Z → Animal → State S (option error);
  store_DeleteAnimal : Z → State S (option error)
}.

(** [*InMemoryAnimalStore] implements [AnimalStore]. *)
Definition InMemory (range : range_order) : AnimalStore InMemoryAnimalStore :=
  {| store_GetAllAnimals := GetAllAnimals range;
     store_GetAnimalByID := GetAnimalByID;
     store_CreateAnimal := CreateAnimal;
     store_UpdateAnimal := UpdateAnimal;
     store_UpsertAnimal := UpsertAnimal;
     store_DeleteAnimal := DeleteAnimal |}.

(** ** HTTP *)

Definition StatusOK : Z := 200.
Definition StatusCreated : Z := 201.
Definition StatusNoContent : Z := 204.
Definition StatusBadRequest : Z := 400.
Definition StatusNotFound : Z := 404.
Definition StatusConflict : Z := 409.
Definition StatusInternalServerError : Z := 500.

(** What a handler reads from [*http.Request]: the outcome of
    [strconv.Atoi(mux.Vars(r)["id"])] and of
    [json.NewDecoder(r.Body).Decode(&animal)], [None] when the library call
    returns an error. *)
Record Request : Type := mkRequest {
  path_id : option Z;
  decoded_body : option Animal
}.

(** What a handler writes to [http.ResponseWriter]. *)
Inductive Body : Type :=
| Empty
| Text (msg : string)                (* http.Error(w, msg, code) *)
| JSON_animal (animal : Animal)      (* json.NewEncoder(w).Encode(animal) *)
| JSON_animals (all : list Animal).  (* json.NewEncoder(w).Encode(animals) *)

Record Response : Type := mkResponse {
  status : Z;
  body : Body
}.

(** [http.Error(w, msg, code)] *)
Definition http_Error (msg : string) (code : Z) : Response :=
  {| status := code; body := Text msg |}.

Section Handlers.
Context {S : Type} `{store : AnimalStore S}.

Definition getAnimalsHandler (r : Request) : State S Response :=
  call res <- store_GetAllAnimals ;;
  match res with
  | Err err =>
      if decide (Error err = "no animals found") then
        ret (http_Error "No animals found in the system" StatusNotFound)
      else ret (http_Error (Error err) StatusInternalServerError)
  | Ok all => ret {| status := StatusOK; body := JSON_animals all |}
  end.

Definition getAnimalHandler (r : Request) : State S Response :=
  match path_id r with
  | None => ret (http_Error "Invalid animal ID" StatusBadRequest)
  | Some id =>
      call res <- store_GetAnimalByID id ;;
      match res with
      | Err err => ret (http_Error (Error err) StatusNotFound)
      | Ok animal => ret {| status := StatusOK; body := JSON_animal animal |}
      end
  end.

Definition createAnimalHandler (r : Request) : State S Response :=
  match decoded_body r with
  | None => ret (http_Error "Invalid request body" StatusBadRequest)
  | Some animal =>
      if decide (ID animal = 0) then
        ret (http_Error "Animal ID is required for creation" StatusBadRequest)
      else
        call found <- store_GetAnimalByID (ID animal) ;;
        match found with
        | Ok _ =>
            ret (http_Error
                   ("Animal with ID " +:+ pretty (ID animal) +:+ " already exists")
                   StatusConflict)
        | Err _ =>
            call err <- store_CreateAnimal animal ;;
            match err with
            | Some e => ret (http_Error (Error e) StatusInternalServerError)
            | None =>
                ret {| status := StatusCreated; body := JSON_animal animal |}
            end
        end
  end.

Definition updateAnimalHandler (r : Request) : State S Response :=
  match path_id r with
  | None => ret (http_Error "Invalid animal ID in path" StatusBadRequest)
  | Some id =>
      match decoded_body r with
      | None => ret (http_Error "Invalid request body" StatusBadRequest)
      | Some body_animal =>
          let animal := set_ID body_animal id in
          call found <- store_GetAnimalByID id ;;
          match found with
          | Ok _ =>
              call err <- store_UpdateAnimal id animal ;;
              match err with
              | Some e => ret (http_Error (Error e) StatusInternalServerError)
              | None => ret {| status := StatusOK; body := JSON_animal animal |}
              end
          | Err _ =>
              call err <- store_UpsertAnimal id animal ;;
              match err with
              | Some e => ret (http_Error (Error e) StatusInternalServerError)
              | None =>
                  ret {| status := StatusCreated; body := JSON_animal animal |}
              end
          end
      end
  end.

Definition deleteAnimalHandler (r : Request) : State S Response :=
  match path_id r with
  | None => ret (http_Error "Invalid animal ID" StatusBadRequest)
  | Some id =>
      call err <- store_DeleteAnimal id ;;
      match err with
      | Some e => ret (http_Error (Error e) StatusNotFound)
      | None => ret {| status := StatusNoContent; body := Empty |}
      end
  end.

End Handlers.

(** ** Process start-up

    [main] builds the store and seeds it with three records before it
    registers the routes. The returned errors are dropped ([_ = ...]). *)
Definition lion : Animal := mkAnimal 1 "lion" "mammal" 4.
Definition eagle : Animal := mkAnimal 2 "eagle" "bird" 2.
Definition snake : Animal := mkAnimal 3 "snake" "reptile" 0.

(** Records used in the worked requests below. *)
Definition panda : Animal := mkAnimal 101 "panda" "mammal" 4.
Definition grizzly : Animal := mkAnimal 0 "grizzly bear" "mammal" 4.
Definition cat : Animal := mkAnimal 0 "cat" "mammal" 4.

Definition seed : State InMemoryAnimalStore unit :=
  call e1 <- CreateAnimal lion ;;
  call e2 <- CreateAnimal eagle ;;
  call e3 <- CreateAnimal snake ;;
  ret tt.

Definition seeded_store : InMemoryAnimalStore := (seed NewInMemoryAnimalStore).2.

(** ** Runs of store calls *)

(** [CreateAnimal] called on each record of [rs] in turn; the errors
    returned, in call order. *)
Fixpoint create_each (rs : list Animal)
  : State InMemoryAnimalStore (list (option error)) :=
  match rs with
  | [] => ret []
  | r :: rs' =>
      call e <- CreateAnimal r ;;
      call es <- create_each rs' ;;
      ret (e :: es)
  end.

(** The record [CreateAnimal] writes into the map for argument [r]: [r]
    itself, or [r] with [nextID] as its id when [r.ID == 0]. *)
Definition stored_form (s : InMemoryAnimalStore) (r : Animal) : Animal :=
  if decide (ID r = 0) then set_ID r (nextID s) else r.

Fixpoint created_records (rs : list Animal) (s : InMemoryAnimalStore)
  : list Animal :=
  match rs with
  | [] => []
  | r :: rs' => stored_form s r :: created_records rs' (CreateAnimal r s).2
  end.

(** The mutating calls of the interface. *)
Inductive op : Type :=
| Create (animal : Animal)
| Update (id : Z) (animal : Animal)
| Upsert (id : Z) (animal : Animal)
| Delete (id : Z).

Definition run_op (o : op) : State InMemoryAnimalStore (option error) :=
  match o with
  | Create animal => CreateAnimal animal
  | Update id animal => UpdateAnimal id animal
  | Upsert id animal => UpsertAnimal id animal
  | Delete id => DeleteAnimal id
  end.

(** The states the store can be in: the fresh store, and whatever a call
    leaves behind, whether it returned an error or not. *)
Inductive reachable : InMemoryAnimalStore → Prop :=
| reachable_new : reachable NewInMemoryAnimalStore
| reachable_step o s : reachable s → reachable (run_op o s).2.

(** Map key and [ID] field agree on every entry. *)
Definition keys_match_ids (s : InMemoryAnimalStore) : Prop :=
  ∀ k a, animals s !! k = Some a → ID a = k.

(** The one key of the map a call can write or remove. *)
Definition written_key (o : op) (s : InMemoryAnimalStore) : Z :=
  match o with
  | Create animal => ID (stored_form s animal)
  | Update id _ => id
  | Upsert id _ => id
  | Delete id => id
  end.

(** ** The running service *)

(** The five routes [main] registers on the router, each with its handler
    closed over the one store:
    [GET /v1/animals], [GET /v1/animals/{id}], [POST /v1/animals],
    [PUT /v1/animals/{id}], [DELETE /v1/animals/{id}]. *)
Inductive route : Type :=
| RouteGetAnimals
| RouteGetAnimal
| RouteCreateAnimal
| RouteUpdateAnimal
| RouteDeleteAnimal.

(** The handler a route is registered with, over whatever implements the
    store interface. *)
Definition handler_of {S : Type} `{store : AnimalStore S} (rt : route)
  : Request → State S Response :=
  match rt with
  | RouteGetAnimals => getAnimalsHandler
  | RouteGetAnimal => getAnimalHandler
  | RouteCreateAnimal => createAnimalHandler
  | RouteUpdateAnimal => updateAnimalHandler
  | RouteDeleteAnimal => deleteAnimalHandler
  end.

(** [main] passes the in-memory store to all five. *)
Definition serve (range : range_order) (rt : route) (r : Request)
  : State InMemoryAnimalStore Response :=
  handler_of (store := InMemory range) rt r.

(** The request parts a handler looks at before it calls the store: the
    path id where the route has one, the body where the handler decodes
    one, and for POST the decoded id. *)
Definition malformed (rt : route) (r : Request) : Prop :=
  match rt with
  | RouteGetAnimals => False
  | RouteGetAnimal => path_id r = None
  | RouteCreateAnimal =>
      decoded_body r = None ∨ ∃ animal, decoded_body r = Some animal ∧ ID animal = 0
  | RouteUpdateAnimal => path_id r = None ∨ decoded_body r = None
  | RouteDeleteAnimal => path_id r = None
  end.

(** The status codes written in the body of each handler, the 500 of the
    branches for unexpected store errors left out. *)
Definition statuses_of (rt : route) : list Z :=
  match rt with
  | RouteGetAnimals => [StatusOK; StatusNotFound]
  | RouteGetAnimal => [StatusOK; StatusBadRequest; StatusNotFound]
  | RouteCreateAnimal => [StatusCreated; StatusBadRequest; StatusConflict]
  | RouteUpdateAnimal => [StatusOK; StatusCreated; StatusBadRequest]
  | RouteDeleteAnimal => [StatusNoContent; StatusBadRequest; StatusNotFound]
  end.

(** The states of the store while the service runs: as [main] seeded it,
    and after any request served by any of the five handlers, one request
    at a time. *)
Inductive served : InMemoryAnimalStore → Prop :=
| served_seeded : served seeded_store
| served_request range rt r s : served s → served (serve range rt r s).2.

(** A store shared with a second request. Each method holds the mutex for
    its own duration only, so between two calls of one handler another
    request's call can run: here [other] runs right after this request's
    [GetAnimalByID] has returned. *)
Definition SharedWith (other : State InMemoryAnimalStore (option error))
  : AnimalStore InMemoryAnimalStore :=
  {| store_GetAllAnimals := GetAllAnimals map_to_list;
     store_GetAnimalByID := λ id,
       call found <- GetAnimalByID id ;;
       call e <- other ;;
       ret found;
     store_CreateAnimal := CreateAnimal;
     store_UpdateAnimal := UpdateAnimal;
     store_UpsertAnimal := UpsertAnimal;
     store_DeleteAnimal := DeleteAnimal |}.

(** * Properties of the store *)

(** [GetAnimalByID] reads the map and nothing else. *)
Lemma GetAnimalByID_found s id animal :
  animals s !! id = Some animal → GetAnimalByID id s = (Ok animal, s).
Proof. intros Hin. unfold GetAnimalByID. by rewrite Hin. Qed.

Lemma GetAnimalByID_missing s id :
  animals s !! id = None → GetAnimalByID id s = (Err (ErrNotFound id), s).
Proof. intros Hout. unfold GetAnimalByID. by rewrite Hout. Qed.

(** The two branches of [CreateAnimal] that write. *)
Lemma CreateAnimal_fresh s r :
  ID r ≠ 0 → animals s !! ID r = None →
  CreateAnimal r s =
    (None, {| animals := <[ID r := r]> (animals s); nextID := nextID s |}).
Proof.
  intros Hnz Hfresh. unfold CreateAnimal.
  case_decide; [done |]. by rewrite Hfresh.
Qed.

Lemma CreateAnimal_zero s r :
  ID r = 0 →
  CreateAnimal r s =
    (None, {| animals := <[nextID s := set_ID r (nextID s)]> (animals s);
              nextID := GoInt.incr (nextID s) |}).
Proof. intros Hz. unfold CreateAnimal. by case_decide. Qed.

Lemma CreateAnimal_duplicate s r x :
  ID r ≠ 0 → animals s !! ID r = Some x →
  CreateAnimal r s = (Some (ErrAlreadyExists (ID r)), s).
Proof.
  intros Hnz Hdup. unfold CreateAnimal.
  case_decide; [done |]. by rewrite Hdup.
Qed.

(** What [CreateAnimal] leaves in the map, whichever branch ran. *)
Lemma CreateAnimal_ok_animals s r s' :
  CreateAnimal r s = (None, s') →
  animals s' = <[ID (stored_form s r) := stored_form s r]> (animals s).
Proof.
  unfold CreateAnimal, stored_form. case_decide as Hz.
  - intros [= <-]. reflexivity.
  - destruct (animals s !! ID r); intros [= <-]. reflexivity.
Qed.

(** C1: in any store state, a record [r] with a non-zero id that the store
    does not hold yet is accepted by [CreateAnimal], and [GetAnimalByID r.ID]
    on the resulting store returns [r] itself. *)
Theorem create_then_get s r :
  ID r ≠ 0 →
  animals s !! ID r = None →
  ∃ s', CreateAnimal r s = (None, s') ∧ GetAnimalByID (ID r) s' = (Ok r, s').
Proof.
  intros Hnz Hfresh. eexists. split.
  - by apply CreateAnimal_fresh.
  - apply GetAnimalByID_found. simpl. apply lookup_insert_eq.
Qed.

Lemma create_then_get_witness :
  ID panda ≠ 0 ∧ animals seeded_store !! ID panda = None ∧
  ∃ s', CreateAnimal panda seeded_store = (None, s') ∧
        GetAnimalByID (ID panda) s' = (Ok panda, s').
Proof.
  assert (Hnz : ID panda ≠ 0) by (simpl; lia).
  assert (Hfresh : animals seeded_store !! ID panda = None) by (vm_compute; reflexivity).
  split; [exact Hnz |]. split; [exact Hfresh |].
  exact (create_then_get seeded_store panda Hnz Hfresh).
Defined.

(** C2: in any store state, for any id and any record [r], [UpsertAnimal id r]
    returns no error, and [GetAnimalByID id] afterwards returns the record
    whose [ID] is [id] and whose name, class and legs are those of [r]. *)
Theorem upsert_then_get s id r :
  ∃ s', UpsertAnimal id r s = (None, s') ∧
        GetAnimalByID id s' =
          (Ok {| ID := id; Name := Name r; Class_ := Class_ r; Legs := Legs r |},
           s').
Proof.
  eexists. split; [reflexivity |].
  apply GetAnimalByID_found. simpl. apply lookup_insert_eq.
Qed.

(** C4: when [id] is absent, [UpdateAnimal id r] returns its not-found error
    and the store it leaves is the store it was given. *)
Theorem update_absent s id r :
  animals s !! id = None →
  UpdateAnimal id r s = (Some (ErrNotFoundForUpdate id), s).
Proof. intros Hout. unfold UpdateAnimal. by rewrite Hout. Qed.

Lemma update_absent_witness :
  animals seeded_store !! 55 = None ∧
  UpdateAnimal 55 lion seeded_store = (Some (ErrNotFoundForUpdate 55), seeded_store).
Proof.
  assert (Hout : animals seeded_store !! 55 = None) by (vm_compute; reflexivity).
  split; [exact Hout |]. exact (update_absent seeded_store 55 lion Hout).
Defined.

(** C8: when [id] is present, [DeleteAnimal id] returns no error and
    [GetAnimalByID id] on the resulting store returns its not-found error;
    when [id] is absent, [DeleteAnimal id] returns its not-found error. *)
Theorem delete_then_get s id :
  (is_Some (animals s !! id) →
   ∃ s', DeleteAnimal id s = (None, s') ∧
         GetAnimalByID id s' = (Err (ErrNotFound id), s')) ∧
  (animals s !! id = None →
   DeleteAnimal id s = (Some (ErrNotFoundForDeletion id), s)).
Proof.
  split.
  - intros [x Hin]. eexists. split.
    + unfold DeleteAnimal. rewrite Hin. reflexivity.
    + apply GetAnimalByID_missing. simpl. apply lookup_delete_eq.
  - intros Hout. unfold DeleteAnimal. by rewrite Hout.
Qed.

Lemma delete_then_get_witness :
  (is_Some (animals seeded_store !! 2) ∧
   ∃ s', DeleteAnimal 2 seeded_store = (None, s') ∧
         GetAnimalByID 2 s' = (Err (ErrNotFound 2), s')) ∧
  (animals seeded_store !! 55 = None ∧
   DeleteAnimal 55 seeded_store = (Some (ErrNotFoundForDeletion 55), seeded_store)).
Proof.
  assert (Hin : is_Some (animals seeded_store !! 2)) by (exists eagle; vm_compute; reflexivity).
  assert (Hout : animals seeded_store !! 55 = None) by (vm_compute; reflexivity).
  split.
  - split; [exact Hin |]. exact (proj1 (delete_then_get seeded_store 2) Hin).
  - split; [exact Hout |]. exact (proj2 (delete_then_get seeded_store 55) Hout).
Defined.

(** * Properties of the handlers

    A handler is run against the in-memory store with no other request's
    store call between its own calls. *)

Ltac unfold_handler :=
  unfold createAnimalHandler, updateAnimalHandler, bind, ret; simpl.

(** The POST handler's lookup and the store's own duplicate check decide
    alike: for a non-zero id, one finds the record exactly when the other
    refuses it. *)
Lemma precheck_iff_create_refuses s r :
  ID r ≠ 0 →
  (∃ a, (GetAnimalByID (ID r) s).1 = Ok a) ↔
  (CreateAnimal r s).1 = Some (ErrAlreadyExists (ID r)).
Proof.
  intros Hnz. unfold GetAnimalByID, CreateAnimal.
  case_decide; [done |].
  destruct (animals s !! ID r) as [x|]; simpl; split; try done.
  - by exists x.
  - intros [a [=]].
Qed.

Lemma createAnimalHandler_present range s pid r x :
  ID r ≠ 0 → animals s !! ID r = Some x →
  createAnimalHandler (store := InMemory range) (mkRequest pid (Some r)) s =
    (http_Error ("Animal with ID " +:+ pretty (ID r) +:+ " already exists")
       StatusConflict, s).
Proof.
  intros Hnz Hin. unfold_handler.
  case_decide; [done |]. unfold GetAnimalByID. by rewrite Hin.
Qed.

Lemma createAnimalHandler_absent range s pid r :
  ID r ≠ 0 → animals s !! ID r = None →
  createAnimalHandler (store := InMemory range) (mkRequest pid (Some r)) s =
    ({| status := StatusCreated; body := JSON_animal r |},
     {| animals := <[ID r := r]> (animals s); nextID := nextID s |}).
Proof.
  intros Hnz Hout. unfold_handler.
  case_decide; [done |]. unfold GetAnimalByID. rewrite Hout.
  by rewrite CreateAnimal_fresh.
Qed.

(** The branch of the POST handler that answers 500 is never taken. *)
Lemma createAnimalHandler_no_500 range s req :
  status (createAnimalHandler (store := InMemory range) req s).1
    ≠ StatusInternalServerError.
Proof.
  destruct req as [pid [r|]]; [| by unfold_handler].
  destruct (decide (ID r = 0)) as [Hz|Hnz].
  - unfold_handler. by case_decide.
  - destruct (animals s !! ID r) as [x|] eqn:Hlook.
    + by erewrite createAnimalHandler_present.
    + by rewrite createAnimalHandler_absent.
Qed.

(** C3: for a record [r] with a non-zero id, in any store state: if the id
    is present, [CreateAnimal r] returns its already-exists error and leaves
    the store as it was, and the POST handler answers 409 and leaves the
    store as it was; and the handler's own lookup agrees with the store's
    check, the handler answering 409 exactly when [CreateAnimal r] would
    return the already-exists error. *)
Theorem create_duplicate_conflict range s pid r :
  ID r ≠ 0 →
  (is_Some (animals s !! ID r) →
   CreateAnimal r s = (Some (ErrAlreadyExists (ID r)), s)) ∧
  (is_Some (animals s !! ID r) →
   createAnimalHandler (store := InMemory range) (mkRequest pid (Some r)) s =
     (http_Error ("Animal with ID " +:+ pretty (ID r) +:+ " already exists")
        StatusConflict, s)) ∧
  (status (createAnimalHandler (store := InMemory range)
             (mkRequest pid (Some r)) s).1 = StatusConflict ↔
   (CreateAnimal r s).1 = Some (ErrAlreadyExists (ID r))).
Proof.
  intros Hnz. split; [| split].
  - intros [x Hin]. by eapply CreateAnimal_duplicate.
  - intros [x Hin]. by eapply createAnimalHandler_present.
  - destruct (animals s !! ID r) as [x|] eqn:Hlook.
    + erewrite createAnimalHandler_present, CreateAnimal_duplicate; done.
    + rewrite createAnimalHandler_absent, CreateAnimal_fresh; done.
Qed.

Lemma create_duplicate_conflict_witness :
  ID lion ≠ 0 ∧ is_Some (animals seeded_store !! ID lion) ∧
  CreateAnimal lion seeded_store = (Some (ErrAlreadyExists 1), seeded_store) ∧
  createAnimalHandler (store := InMemory map_to_list)
    (mkRequest None (Some lion)) seeded_store =
    (http_Error "Animal with ID 1 already exists" 409, seeded_store).
Proof.
  assert (Hnz : ID lion ≠ 0) by (simpl; lia).
  assert (Hin : is_Some (animals seeded_store !! ID lion))
    by (exists lion; vm_compute; reflexivity).
  destruct (create_duplicate_conflict map_to_list seeded_store None lion Hnz)
    as (Hstore & Hhandler & _).
  split; [exact Hnz |]. split; [exact Hin |].
  split; [exact (Hstore Hin) | exact (Hhandler Hin)].
Defined.

Lemma updateAnimalHandler_present range s id b x :
  animals s !! id = Some x →
  updateAnimalHandler (store := InMemory range) (mkRequest (Some id) (Some b)) s =
    ({| status := StatusOK; body := JSON_animal (set_ID b id) |},
     (UpdateAnimal id (set_ID b id) s).2).
Proof.
  intros Hin. unfold_handler. unfold GetAnimalByID, UpdateAnimal.
  by rewrite !Hin.
Qed.

Lemma updateAnimalHandler_absent range s id b :
  animals s !! id = None →
  updateAnimalHandler (store := InMemory range) (mkRequest (Some id) (Some b)) s =
    ({| status := StatusCreated; body := JSON_animal (set_ID b id) |},
     (UpsertAnimal id (set_ID b id) s).2).
Proof.
  intros Hout. unfold_handler. unfold GetAnimalByID. by rewrite Hout.
Qed.

(** C5, as the handler has it: for a PUT request whose path id parsed to
    [id] and whose body decoded to [b], the record the handler works with
    has [id] as its [ID] and the name, class and legs of [b], so the [ID] of
    [b] has no influence. Over any implementation of the store, the handler
    calls [GetAnimalByID id]; if that finds a record it calls [UpdateAnimal]
    and answers 200 with the record when the call returns no error and 500
    with the error's text when it returns one; if it finds none it calls
    [UpsertAnimal] and answers 201 or 500 likewise. Over the in-memory store
    with no other request's call between the two calls of the handler,
    neither call returns an error: the answer is 200 when [id] was present
    and 201 when it was absent, and the record is in the store afterwards. *)
Theorem put_update_or_upsert range s id b :
  let put := updateAnimalHandler (store := InMemory range) in
  let animal :=
    {| ID := id; Name := Name b; Class_ := Class_ b; Legs := Legs b |} in
  (∀ b', Name b' = Name b → Class_ b' = Class_ b → Legs b' = Legs b →
         put (mkRequest (Some id) (Some b')) s =
         put (mkRequest (Some id) (Some b)) s) ∧
  (is_Some (animals s !! id) →
   (UpdateAnimal id animal s).1 = None ∧
   put (mkRequest (Some id) (Some b)) s =
     ({| status := StatusOK; body := JSON_animal animal |},
      (UpdateAnimal id animal s).2)) ∧
  (animals s !! id = None →
   (UpsertAnimal id animal s).1 = None ∧
   put (mkRequest (Some id) (Some b)) s =
     ({| status := StatusCreated; body := JSON_animal animal |},
      (UpsertAnimal id animal s).2)) ∧
  (status (put (mkRequest (Some id) (Some b)) s).1 = StatusOK ∨
   status (put (mkRequest (Some id) (Some b)) s).1 = StatusCreated) ∧
  animals (put (mkRequest (Some id) (Some b)) s).2 !! id = Some animal ∧
  (∀ (S : Type) (store : AnimalStore S) (t : S),
     updateAnimalHandler (store := store) (mkRequest (Some id) (Some b)) t =
       let '(found, t1) := store_GetAnimalByID id t in
       match found with
       | Ok _ =>
           let '(err, t2) := store_UpdateAnimal id animal t1 in
           (match err with
            | Some e => http_Error (Error e) StatusInternalServerError
            | None => {| status := StatusOK; body := JSON_animal animal |}
            end, t2)
       | Err _ =>
           let '(err, t2) := store_UpsertAnimal id animal t1 in
           (match err with
            | Some e => http_Error (Error e) StatusInternalServerError
            | None => {| status := StatusCreated; body := JSON_animal animal |}
            end, t2)
       end).
Proof.
  intros put animal. subst put.
  change animal with (set_ID b id). clear animal.
  split; [| split; [| split; [| split; [| split]]]].
  - intros b' Hname Hclass Hlegs.
    unfold updateAnimalHandler. simpl.
    replace (set_ID b' id) with (set_ID b id); [done |].
    unfold set_ID. by rewrite Hname, Hclass, Hlegs.
  - intros [x Hin]. split.
    + unfold UpdateAnimal. by rewrite Hin.
    + by eapply updateAnimalHandler_present.
  - intros Hout. split; [reflexivity |].
    by apply updateAnimalHandler_absent.
  - destruct (animals s !! id) as [x|] eqn:Hlook.
    + left. by erewrite updateAnimalHandler_present.
    + right. by rewrite updateAnimalHandler_absent.
  - destruct (animals s !! id) as [x|] eqn:Hlook.
    + erewrite updateAnimalHandler_present by done.
      unfold UpdateAnimal. rewrite Hlook. simpl. apply lookup_insert_eq.
    + rewrite updateAnimalHandler_absent by done.
      simpl. apply lookup_insert_eq.
  - intros S store t. unfold updateAnimalHandler, bind, ret. simpl.
    destruct (store_GetAnimalByID id t) as [[a|e] t1].
    + by destruct (store_UpdateAnimal id (set_ID b id) t1) as [[e'|] t2].
    + by destruct (store_UpsertAnimal id (set_ID b id) t1) as [[e'|] t2].
Qed.

Lemma put_update_or_upsert_witness :
  (animals seeded_store !! 55 = None ∧
   updateAnimalHandler (store := InMemory map_to_list)
     (mkRequest (Some 55) (Some grizzly)) seeded_store =
     ({| status := 201; body := JSON_animal (mkAnimal 55 "grizzly bear" "mammal" 4) |},
      (UpsertAnimal 55 (mkAnimal 55 "grizzly bear" "mammal" 4) seeded_store).2)) ∧
  (is_Some (animals seeded_store !! 1) ∧
   updateAnimalHandler (store := InMemory map_to_list)
     (mkRequest (Some 1) (Some grizzly)) seeded_store =
     ({| status := 200; body := JSON_animal (mkAnimal 1 "grizzly bear" "mammal" 4) |},
      (UpdateAnimal 1 (mkAnimal 1 "grizzly bear" "mammal" 4) seeded_store).2)).
Proof.
  assert (Hout : animals seeded_store !! 55 = None) by (vm_compute; reflexivity).
  assert (Hin : is_Some (animals seeded_store !! 1))
    by (exists lion; vm_compute; reflexivity).
  destruct (put_update_or_upsert map_to_list seeded_store 55 grizzly)
    as (_ & _ & Hupsert & _).
  destruct (put_update_or_upsert map_to_list seeded_store 1 grizzly)
    as (_ & Hupdate & _).
  split.
  - split; [exact Hout |]. exact (proj2 (Hupsert Hout)).
  - split; [exact Hin |]. exact (proj2 (Hupdate Hin)).
Defined.

(** C5 as worded fails: the handler's lookup and its update are two calls
    on the store, and the mutex is free in between. On the seeded store, a
    PUT on id 1 finds the lion; another request's [DeleteAnimal 1] runs
    next; the handler's [UpdateAnimal] then returns its not-found error and
    the PUT, whose path id parsed and whose body decoded, is answered
    500. *)
Lemma put_never_fails_counterexample :
  (GetAnimalByID 1 seeded_store).1 = Ok lion ∧
  updateAnimalHandler (store := SharedWith (DeleteAnimal 1))
    (mkRequest (Some 1) (Some grizzly)) seeded_store =
    (http_Error "animal with ID 1 not found for update" 500,
     {| animals := delete 1 (animals seeded_store); nextID := 1 |}) ∧
  ¬ (status (updateAnimalHandler (store := SharedWith (DeleteAnimal 1))
               (mkRequest (Some 1) (Some grizzly)) seeded_store).1 = StatusOK ∨
     status (updateAnimalHandler (store := SharedWith (DeleteAnimal 1))
               (mkRequest (Some 1) (Some grizzly)) seeded_store).1 = StatusCreated).
Proof.
  assert (Hrun : updateAnimalHandler (store := SharedWith (DeleteAnimal 1))
                   (mkRequest (Some 1) (Some grizzly)) seeded_store =
                 (http_Error "animal with ID 1 not found for update" 500,
                  {| animals := delete 1 (animals seeded_store); nextID := 1 |}))
    by reflexivity.
  split; [reflexivity |]. split; [exact Hrun |].
  rewrite Hrun. simpl. intros [Hok | Hcreated]; discriminate.
Qed.

(** * Auto-assigned ids *)

(** Below the largest [int], [x++] is [x + 1]; at the largest it wraps. *)
Lemma incr_no_overflow x :
  GoInt.min_int ≤ x < GoInt.max_int → GoInt.incr x = x + 1.
Proof.
  unfold GoInt.incr, GoInt.wrap, GoInt.min_int, GoInt.max_int, GoInt.bits.
  intros Hx. rewrite Z.mod_small; lia.
Qed.

Lemma incr_in_range x : GoInt.in_range (GoInt.incr x).
Proof.
  unfold GoInt.in_range, GoInt.incr, GoInt.wrap, GoInt.min_int, GoInt.max_int,
    GoInt.bits.
  pose proof (Z.mod_pos_bound (x + 1 - - 2 ^ (64 - 1)) (2 ^ 64)). lia.
Qed.

Lemma incr_max_int : GoInt.incr GoInt.max_int = GoInt.min_int.
Proof. reflexivity. Qed.



(** C10: [CreateAnimal] given a record whose [ID] is 0 never returns an
    error, in any store state; and it does not look whether the id it
    assigns is taken: whenever key [nextID] is occupied, the call returns
    no error and the record that was there is replaced. The store as [main]
    seeds it is such a state: its counter is still 1 and key 1 holds the
    lion, which a zero-id create replaces. *)
Theorem create_zero_id_overwrites :
  (∀ s r, ID r = 0 → (CreateAnimal r s).1 = None) ∧
  (∀ s r x, ID r = 0 → animals s !! nextID s = Some x →
     ∃ s', CreateAnimal r s = (None, s') ∧
           animals s' !! nextID s = Some (set_ID r (nextID s)) ∧
           dom (animals s') = dom (animals s)) ∧
  (nextID seeded_store = 1 ∧
   animals seeded_store !! 1 = Some lion ∧
   ∃ s', CreateAnimal cat seeded_store = (None, s') ∧
         animals s' !! 1 = Some (set_ID cat 1) ∧
         dom (animals s') = dom (animals seeded_store)).
Proof.
  assert (Hgen : ∀ s r x, ID r = 0 → animals s !! nextID s = Some x →
     ∃ s', CreateAnimal r s = (None, s') ∧
           animals s' !! nextID s = Some (set_ID r (nextID s)) ∧
           dom (animals s') = dom (animals s)).
  { intros s r x Hz Hocc. eexists. split; [by apply CreateAnimal_zero |].
    simpl. split; [apply lookup_insert_eq |].
    rewrite dom_insert_L. apply elem_of_dom_2 in Hocc.
    apply subseteq_union_1_L. by apply singleton_subseteq_l. }
  split; [| split].
  - intros s r Hz. by rewrite CreateAnimal_zero.
  - exact Hgen.
  - split; [reflexivity |]. split; [vm_compute; reflexivity |].
    apply (Hgen seeded_store cat lion); [reflexivity | vm_compute; reflexivity].
Qed.

Lemma create_zero_id_overwrites_witness :
  ID cat = 0 ∧ animals seeded_store !! nextID seeded_store = Some lion ∧
  (CreateAnimal cat seeded_store).1 = None ∧
  ∃ s', CreateAnimal cat seeded_store = (None, s') ∧
        animals s' !! nextID seeded_store = Some (set_ID cat (nextID seeded_store)) ∧
        dom (animals s') = dom (animals seeded_store).
Proof.
  assert (Hz : ID cat = 0) by reflexivity.
  assert (Hocc : animals seeded_store !! nextID seeded_store = Some lion)
    by (vm_compute; reflexivity).
  destruct create_zero_id_overwrites as (Hnoerr & Hreplace & _).
  split; [exact Hz |]. split; [exact Hocc |].
  split; [exact (Hnoerr seeded_store cat Hz) |].
  exact (Hreplace seeded_store cat lion Hz Hocc).
Defined.

(** * The key/id invariant *)

Lemma keys_match_ids_insert s id animal :
  keys_match_ids s → ID animal = id →
  keys_match_ids {| animals := <[id := animal]> (animals s); nextID := nextID s |}.
Proof.
  intros Hinv Hid k a. simpl. rewrite lookup_insert.
  case_decide; [intros [= ?]; by subst | apply Hinv].
Qed.

Lemma run_op_keys_match_ids o s :
  keys_match_ids s → keys_match_ids (run_op o s).2.
Proof.
  intros Hinv. destruct o as [animal | id animal | id animal | id]; simpl.
  - unfold CreateAnimal. case_decide.
    + intros k a. simpl. rewrite lookup_insert.
      case_decide; [intros [= ?]; by subst | apply Hinv].
    + destruct (animals s !! ID animal); [done |].
      by apply keys_match_ids_insert.
  - unfold UpdateAnimal. destruct (animals s !! id); [| done].
    by apply keys_match_ids_insert.
  - unfold UpsertAnimal. by apply keys_match_ids_insert.
  - unfold DeleteAnimal. destruct (animals s !! id) as [x|]; [| done].
    intros k a. simpl. rewrite lookup_delete.
    case_decide; [done | apply Hinv].
Qed.

(** The counter of a reachable store is a value an [int] can hold. *)
Lemma reachable_nextID_in_range s : reachable s → GoInt.in_range (nextID s).
Proof.
  induction 1 as [| o s Hs IH].
  - unfold GoInt.in_range, GoInt.min_int, GoInt.max_int, GoInt.bits. simpl. lia.
  - destruct o as [animal | id animal | id animal | id]; simpl.
    + unfold CreateAnimal. case_decide; [apply incr_in_range |].
      by destruct (animals s !! ID animal).
    + unfold UpdateAnimal. by destruct (animals s !! id).
    + done.
    + unfold DeleteAnimal. by destruct (animals s !! id).
Qed.

Lemma reachable_seeded_store : reachable seeded_store.
Proof.
  change seeded_store with
    (run_op (Create snake)
       (run_op (Create eagle)
          (run_op (Create lion) NewInMemoryAnimalStore).2).2).2.
  do 3 apply reachable_step. apply reachable_new.
Qed.

(** C9: in every store state reached from the fresh store by [CreateAnimal],
    [UpdateAnimal], [UpsertAnimal] and [DeleteAnimal] calls, in any number
    and order and with any arguments, each record in the map has its map
    key as its [ID]. *)
Theorem reachable_keys_match_ids s :
  reachable s → ∀ k a, animals s !! k = Some a → ID a = k.
Proof.
  intros Hreach. change (keys_match_ids s).
  induction Hreach as [| o s Hs IH].
  - intros k a. simpl. by rewrite lookup_empty.
  - by apply run_op_keys_match_ids.
Qed.

Lemma reachable_keys_match_ids_witness :
  reachable seeded_store ∧ animals seeded_store !! 2 = Some eagle ∧ ID eagle = 2.
Proof.
  assert (Hlook : animals seeded_store !! 2 = Some eagle) by (vm_compute; reflexivity).
  split; [exact reachable_seeded_store |]. split; [exact Hlook |].
  exact (reachable_keys_match_ids seeded_store reachable_seeded_store 2 eagle Hlook).
Defined.

(** * Listing *)

(** The loop of [GetAllAnimals] appends the visited values in visiting
    order. *)
Lemma range_loop_values (kvs : list (Z * Animal)) (all : list Animal) :
  foldl (λ all kv, all ++ [kv.2]) all kvs = all ++ kvs.*2.
Proof.
  revert all. induction kvs as [| kv kvs IH]; intros all; simpl.
  - by rewrite app_nil_r.
  - rewrite IH. by rewrite <- app_assoc.
Qed.

Lemma GetAllAnimals_empty range s :
  animals s = ∅ → GetAllAnimals range s = (Err ErrNoAnimals, s).
Proof.
  intros Hempty. unfold GetAllAnimals. rewrite Hempty.
  by rewrite map_size_empty.
Qed.

Lemma GetAllAnimals_nonempty range s :
  range_visits_all range → animals s ≠ ∅ →
  ∃ l, GetAllAnimals range s = (Ok l, s) ∧ l ≡ₚ (map_to_list (animals s)).*2.
Proof.
  intros Hrange Hne. unfold GetAllAnimals.
  case_decide as Hsize; [by apply map_size_empty_iff in Hsize |].
  eexists. split; [reflexivity |].
  rewrite range_loop_values. simpl. by rewrite (Hrange (animals s)).
Qed.

(** Unfolding one call of a run. *)
Lemma create_each_cons r rs s es s' :
  create_each (r :: rs) s = (es, s') →
  ∃ e es', es = e :: es' ∧
           CreateAnimal r s = (e, (CreateAnimal r s).2) ∧
           create_each rs (CreateAnimal r s).2 = (es', s').
Proof.
  simpl. unfold bind, ret.
  destruct (CreateAnimal r s) as [e s1]. simpl.
  destruct (create_each rs s1) as [es' s2].
  intros [= <- <-]. by exists e, es'.
Qed.

(** A run of successful creates whose stored ids are pairwise different and
    new to the store adds exactly the stored records to the map. *)
Lemma create_each_contents rs : ∀ s es s',
  create_each rs s = (es, s') →
  Forall (λ e, e = None) es →
  NoDup (ID <$> created_records rs s) →
  (∀ a, a ∈ created_records rs s → animals s !! ID a = None) →
  map_to_list (animals s') ≡ₚ
    ((λ a, (ID a, a)) <$> created_records rs s) ++ map_to_list (animals s).
Proof.
  induction rs as [| r rs IH]; intros s es s' Hrun Hok Hnodup Hfresh.
  - simpl in Hrun. unfold ret in Hrun. by injection Hrun as <- <-.
  - apply create_each_cons in Hrun as (e & es' & -> & Hcreate & Hrest).
    apply Forall_cons in Hok as [-> Hok'].
    simpl in Hnodup, Hfresh |- *.
    apply NoDup_cons in Hnodup as [Hnotin Hnodup'].
    pose proof (CreateAnimal_ok_animals _ _ _ Hcreate) as Hmap.
    assert (Hfresh0 : animals s !! ID (stored_form s r) = None)
      by (apply Hfresh; left).
    rewrite (IH _ _ _ Hrest Hok' Hnodup').
    + rewrite Hmap. rewrite map_to_list_insert by done.
      by rewrite <- Permutation_middle.
    + intros a Ha. rewrite Hmap. rewrite lookup_insert_ne.
      * apply Hfresh. by right.
      * intros Heq. apply Hnotin. rewrite Heq.
        apply list_elem_of_fmap. by exists a.
Qed.

(** With non-zero ids the records are stored as given. *)
Lemma created_records_nonzero rs : ∀ s,
  Forall (λ r, ID r ≠ 0) rs → created_records rs s = rs.
Proof.
  induction rs as [| r rs IH]; intros s Hnz; [done |].
  apply Forall_cons in Hnz as [Hr Hrs]. simpl.
  rewrite (IH _ Hrs). unfold stored_form. by case_decide.
Qed.

(** With non-zero ids, a run of successful creates used pairwise different
    ids, none of them in the store before. *)
Lemma create_each_nonzero_fresh rs : ∀ s es s',
  create_each rs s = (es, s') →
  Forall (λ e, e = None) es →
  Forall (λ r, ID r ≠ 0) rs →
  NoDup (ID <$> rs) ∧ ∀ a, a ∈ rs → animals s !! ID a = None.
Proof.
  induction rs as [| r rs IH]; intros s es s' Hrun Hok Hnz.
  - split; [constructor | by intros a Ha%elem_of_nil].
  - apply create_each_cons in Hrun as (e & es' & -> & Hcreate & Hrest).
    apply Forall_cons in Hok as [-> Hok'].
    apply Forall_cons in Hnz as [Hr Hrs].
    assert (Hnew : animals s !! ID r = None).
    { destruct (animals s !! ID r) as [x|] eqn:Hlook; [| done].
      rewrite (CreateAnimal_duplicate s r x) in Hcreate by done. done. }
    rewrite (CreateAnimal_fresh s r Hr Hnew) in Hrest. simpl in Hrest.
    destruct (IH _ _ _ Hrest Hok' Hrs) as [Hnodup Hfresh]. simpl in Hfresh.
    assert (Hothers : ∀ a, a ∈ rs → ID a ≠ ID r ∧ animals s !! ID a = None).
    { intros a Ha. specialize (Hfresh a Ha).
      apply lookup_insert_None in Hfresh as [? ?]. by split. }
    split.
    + simpl. apply NoDup_cons. split; [| done].
      intros (a & Heq & Ha)%list_elem_of_fmap.
      by destruct (Hothers a Ha) as [Hne _].
    + intros a [-> | Ha]%elem_of_cons; [done |]. by apply Hothers.
Qed.

Lemma created_records_nonempty rs s : rs ≠ [] → created_records rs s ≠ [].
Proof. by destruct rs. Qed.

Lemma listing_from_new range rs es s' :
  range_visits_all range →
  rs ≠ [] →
  create_each rs NewInMemoryAnimalStore = (es, s') →
  Forall (λ e, e = None) es →
  NoDup (ID <$> created_records rs NewInMemoryAnimalStore) →
  ∃ l, GetAllAnimals range s' = (Ok l, s') ∧
       l ≡ₚ created_records rs NewInMemoryAnimalStore.
Proof.
  intros Hrange Hne Hrun Hok Hnodup.
  pose proof (create_each_contents rs _ _ _ Hrun Hok Hnodup) as Hcontents.
  specialize (Hcontents (λ a _, lookup_empty (ID a))).
  change (animals NewInMemoryAnimalStore) with (∅ : gmap Z Animal) in Hcontents.
  rewrite map_to_list_empty, app_nil_r in Hcontents.
  assert (Hmap : animals s' ≠ ∅).
  { intros Hempty%map_to_list_empty_iff. rewrite Hempty in Hcontents.
    apply Permutation_nil_l in Hcontents. symmetry in Hcontents.
    apply fmap_nil_inv in Hcontents.
    by apply (created_records_nonempty rs NewInMemoryAnimalStore). }
  destruct (GetAllAnimals_nonempty range s' Hrange Hmap) as (l & Hget & Hl).
  exists l. split; [done |].
  rewrite Hl, Hcontents, <- list_fmap_compose.
  by rewrite list_fmap_id.
Qed.

(** [GetAllAnimals] on a store whose map is empty returns its no-animals
    error. After a non-empty run of [CreateAnimal] calls on the
    fresh store that all returned no error, and in which the ids the records
    are stored under are pairwise different (no assigned id meets the id of
    another record of the run), [GetAllAnimals] returns, in some order,
    exactly the created records as stored, a record given with [ID] 0
    carrying the id assigned to it; when all given ids are non-zero these
    are the records as given, and the ids are different by themselves. *)
Theorem list_after_creates range :
  range_visits_all range →
  (∀ s, animals s = ∅ → GetAllAnimals range s = (Err ErrNoAnimals, s)) ∧
  (∀ rs es s',
     rs ≠ [] →
     create_each rs NewInMemoryAnimalStore = (es, s') →
     Forall (λ e, e = None) es →
     NoDup (ID <$> created_records rs NewInMemoryAnimalStore) →
     ∃ l, GetAllAnimals range s' = (Ok l, s') ∧
          l ≡ₚ created_records rs NewInMemoryAnimalStore) ∧
  (∀ rs es s',
     rs ≠ [] →
     create_each rs NewInMemoryAnimalStore = (es, s') →
     Forall (λ e, e = None) es →
     Forall (λ r, ID r ≠ 0) rs →
     ∃ l, GetAllAnimals range s' = (Ok l, s') ∧ l ≡ₚ rs).
Proof.
  intros Hrange. split; [by intros s; apply GetAllAnimals_empty | split].
  - intros rs es s' Hne Hrun Hok Hnodup.
    by eapply listing_from_new.
  - intros rs es s' Hne Hrun Hok Hnz.
    destruct (create_each_nonzero_fresh rs _ _ _ Hrun Hok Hnz) as [Hnodup _].
    pose proof (created_records_nonzero rs NewInMemoryAnimalStore Hnz) as Hrecs.
    rewrite <- Hrecs in Hnodup.
    destruct (listing_from_new range rs es s' Hrange Hne Hrun Hok Hnodup)
      as (l & Hget & Hl).
    exists l. split; [done |]. by rewrite <- Hrecs.
Qed.

Lemma list_after_creates_witness :
  range_visits_all map_to_list ∧
  GetAllAnimals map_to_list NewInMemoryAnimalStore =
    (Err ErrNoAnimals, NewInMemoryAnimalStore) ∧
  ∃ es s' l,
    create_each [panda; cat] NewInMemoryAnimalStore = (es, s') ∧
    Forall (λ e, e = None) es ∧
    NoDup (ID <$> created_records [panda; cat] NewInMemoryAnimalStore) ∧
    GetAllAnimals map_to_list s' = (Ok l, s') ∧
    l ≡ₚ [panda; set_ID cat 1].
Proof.
  assert (Hrange : range_visits_all map_to_list) by (intros m; reflexivity).
  destruct (list_after_creates map_to_list Hrange) as (Hempty & Hlist & _).
  split; [exact Hrange |]. split; [exact (Hempty NewInMemoryAnimalStore eq_refl) |].
  assert (Hne : [panda; cat] ≠ []) by discriminate.
  assert (Hok : Forall (λ e : option error, e = None) [None; None])
    by (repeat constructor).
  assert (Hnodup : NoDup (ID <$> created_records [panda; cat] NewInMemoryAnimalStore)).
  { apply (NoDup_cons_2 101 [1]); [| apply (NoDup_cons_2 1 []); [| constructor]].
    - intros Hin%list_elem_of_singleton. discriminate.
    - apply not_elem_of_nil. }
  destruct (Hlist [panda; cat] [None; None]
              (create_each [panda; cat] NewInMemoryAnimalStore).2
              Hne eq_refl Hok Hnodup) as (l & Hget & Hl).
  exists [None; None], (create_each [panda; cat] NewInMemoryAnimalStore).2, l.
  split; [reflexivity |]. split; [exact Hok |]. split; [exact Hnodup |].
  split; [exact Hget | exact Hl].
Defined.

(** C6: the store breaks the claim where an assigned id is taken. From the
    fresh store, creating the lion with id 1 returns no error. A create of
    the cat with id 1 given is then refused with the already-exists error,
    as the comment on [CreateAnimal] says; a create of the cat with [ID] 0
    is assigned the same id 1, returns no error and takes the lion's place.
    After these two successful creates the listing holds one record, which
    is neither the two records given nor the two records as stored. *)
Theorem list_after_colliding_create :
  ∃ s1 s',
    CreateAnimal lion NewInMemoryAnimalStore = (None, s1) ∧
    CreateAnimal (mkAnimal 1 "cat" "mammal" 4) s1 = (Some (ErrAlreadyExists 1), s1) ∧
    CreateAnimal cat s1 = (None, s') ∧
    create_each [lion; cat] NewInMemoryAnimalStore = ([None; None], s') ∧
    GetAnimalByID 1 s1 = (Ok lion, s1) ∧
    GetAnimalByID 1 s' = (Ok (mkAnimal 1 "cat" "mammal" 4), s') ∧
    GetAllAnimals map_to_list s' = (Ok [mkAnimal 1 "cat" "mammal" 4], s') ∧
    ¬ ([mkAnimal 1 "cat" "mammal" 4] ≡ₚ [lion; cat]) ∧
    ¬ ([mkAnimal 1 "cat" "mammal" 4] ≡ₚ [lion; mkAnimal 1 "cat" "mammal" 4]).
Proof.
  eexists _, _. split; [reflexivity |]. split; [reflexivity |].
  split; [reflexivity |]. split; [reflexivity |].
  split; [vm_compute; reflexivity |]. split; [vm_compute; reflexivity |].
  split; [vm_compute; reflexivity |].
  split; intros Hperm%Permutation_length; discriminate.
Qed.

(** * How the store calls act on the map *)

Lemma store_eta s : {| animals := animals s; nextID := nextID s |} = s.
Proof. by destruct s. Qed.

Lemma keys_match_ids_seeded : keys_match_ids seeded_store.
Proof.
  change seeded_store with
    (run_op (Create snake)
       (run_op (Create eagle)
          (run_op (Create lion) NewInMemoryAnimalStore).2).2).2.
  do 3 apply run_op_keys_match_ids.
  intros k a. simpl. by rewrite lookup_empty.
Qed.

(** When the store calls fail, and what a failed call leaves: [CreateAnimal]
    returns an error exactly when the record's id is non-zero and present,
    [UpdateAnimal] and [DeleteAnimal] exactly when their id is absent,
    [UpsertAnimal] never; and a call that returns an error has changed
    nothing, the state after it being the state before it. *)
Theorem failed_call_keeps_store o s :
  ((run_op o s).1 ≠ None ↔
   match o with
   | Create animal => ID animal ≠ 0 ∧ is_Some (animals s !! ID animal)
   | Update id _ => animals s !! id = None
   | Upsert _ _ => False
   | Delete id => animals s !! id = None
   end) ∧
  (∀ e, (run_op o s).1 = Some e → (run_op o s).2 = s) ∧
  (∀ id animal, (UpsertAnimal id animal s).1 = None).
Proof.
  split; [| split; [| done]].
  - destruct o as [animal | id animal | id animal | id]; simpl.
    + unfold CreateAnimal. case_decide as Hz; simpl.
      * split; [done | by intros [? _]].
      * destruct (animals s !! ID animal) as [x|]; simpl.
        -- split; [by eauto | done].
        -- split; [done | by intros [_ [? ?]]].
    + unfold UpdateAnimal. by destruct (animals s !! id).
    + done.
    + unfold DeleteAnimal. by destruct (animals s !! id).
  - intros e. destruct o as [animal | id animal | id animal | id]; simpl.
    + unfold CreateAnimal. case_decide; [done |].
      by destruct (animals s !! ID animal).
    + unfold UpdateAnimal. by destruct (animals s !! id).
    + done.
    + unfold DeleteAnimal. by destruct (animals s !! id).
Qed.

Lemma failed_call_keeps_store_witness :
  (ID lion ≠ 0 ∧ is_Some (animals seeded_store !! ID lion)) ∧
  (run_op (Create lion) seeded_store).1 ≠ None ∧
  (run_op (Create lion) seeded_store).1 = Some (ErrAlreadyExists 1) ∧
  (run_op (Create lion) seeded_store).2 = seeded_store.
Proof.
  assert (Hdup : ID lion ≠ 0 ∧ is_Some (animals seeded_store !! ID lion)).
  { split; [simpl; lia | exists lion; vm_compute; reflexivity]. }
  assert (Herr : (run_op (Create lion) seeded_store).1 = Some (ErrAlreadyExists 1))
    by (vm_compute; reflexivity).
  destruct (failed_call_keeps_store (Create lion) seeded_store)
    as (Hfails & Hkeeps & _).
  split; [exact Hdup |]. split; [exact (proj2 Hfails Hdup) |].
  split; [exact Herr | exact (Hkeeps _ Herr)].
Defined.

(** A call reads and writes one key only, the id it is given or, for a
    record created with [ID] 0, the id assigned: what the map holds under
    any other key is the same before and after, whether the call returned
    an error or not. *)
Theorem call_touches_one_key o s k :
  k ≠ written_key o s →
  animals (run_op o s).2 !! k = animals s !! k.
Proof.
  intros Hk. destruct o as [animal | id animal | id animal | id]; simpl in *.
  - unfold CreateAnimal, stored_form in *. case_decide; simpl in *.
    + by rewrite lookup_insert_ne.
    + destruct (animals s !! ID animal); [done |]. simpl.
      by rewrite lookup_insert_ne.
  - unfold UpdateAnimal. destruct (animals s !! id); [| done]. simpl.
    by rewrite lookup_insert_ne.
  - by rewrite lookup_insert_ne.
  - unfold DeleteAnimal. destruct (animals s !! id); [| done]. simpl.
    by rewrite lookup_delete_ne.
Qed.

Lemma call_touches_one_key_witness :
  2 ≠ written_key (Delete 1) seeded_store ∧
  animals (run_op (Delete 1) seeded_store).2 !! 2 = animals seeded_store !! 2.
Proof.
  assert (Hk : 2 ≠ written_key (Delete 1) seeded_store) by (simpl; lia).
  split; [exact Hk |].
  exact (call_touches_one_key (Delete 1) seeded_store 2 Hk).
Defined.

(** The set of ids in the store after a call that returned no error:
    [CreateAnimal] adds the id the record is stored under, [UpsertAnimal]
    adds its id, [UpdateAnimal] leaves the set as it is, [DeleteAnimal]
    removes its id. *)
Theorem successful_call_ids o s :
  (run_op o s).1 = None →
  dom (animals (run_op o s).2) =
    match o return gset Z with
    | Create animal => {[ID (stored_form s animal)]} ∪ dom (animals s)
    | Update id _ => dom (animals s)
    | Upsert id _ => {[id]} ∪ dom (animals s)
    | Delete id => dom (animals s) ∖ {[id]}
    end.
Proof.
  destruct o as [animal | id animal | id animal | id]; simpl.
  - unfold CreateAnimal, stored_form. case_decide; simpl.
    + intros _. apply dom_insert_L.
    + destruct (animals s !! ID animal); [done |]. intros _. apply dom_insert_L.
  - unfold UpdateAnimal. destruct (animals s !! id) as [x|] eqn:Hlook; [| done].
    intros _. simpl. rewrite dom_insert_L. apply elem_of_dom_2 in Hlook.
    apply subseteq_union_1_L. by apply singleton_subseteq_l.
  - intros _. apply dom_insert_L.
  - unfold DeleteAnimal. destruct (animals s !! id); [| done].
    intros _. apply dom_delete_L.
Qed.

Lemma successful_call_ids_witness :
  (run_op (Delete 2) seeded_store).1 = None ∧
  dom (animals (run_op (Delete 2) seeded_store).2) =
    dom (animals seeded_store) ∖ {[2]}.
Proof.
  assert (Hok : (run_op (Delete 2) seeded_store).1 = None)
    by (vm_compute; reflexivity).
  split; [exact Hok |].
  exact (successful_call_ids (Delete 2) seeded_store Hok).
Defined.

(** Creating a record under a new non-zero id and then deleting that id
    gives back the store exactly as it was, both calls returning no
    error. *)
Theorem create_then_delete_restores s r :
  ID r ≠ 0 →
  animals s !! ID r = None →
  (call e1 <- CreateAnimal r ;; call e2 <- DeleteAnimal (ID r) ;; ret (e1, e2)) s
    = ((None, None), s).
Proof.
  intros Hnz Hfresh. unfold bind, ret.
  rewrite CreateAnimal_fresh by done.
  unfold DeleteAnimal. simpl. rewrite lookup_insert_eq. simpl.
  rewrite delete_insert_id by done. by rewrite store_eta.
Qed.

Lemma create_then_delete_restores_witness :
  ID panda ≠ 0 ∧ animals seeded_store !! ID panda = None ∧
  (call e1 <- CreateAnimal panda ;; call e2 <- DeleteAnimal (ID panda) ;;
   ret (e1, e2)) seeded_store = ((None, None), seeded_store).
Proof.
  assert (Hnz : ID panda ≠ 0) by (simpl; lia).
  assert (Hfresh : animals seeded_store !! ID panda = None)
    by (vm_compute; reflexivity).
  split; [exact Hnz |]. split; [exact Hfresh |].
  exact (create_then_delete_restores seeded_store panda Hnz Hfresh).
Defined.

(** [UpsertAnimal] is [UpdateAnimal] where the id is present, and
    [CreateAnimal] of the record carrying that id where a non-zero id is
    absent: same returned value, same resulting store. *)
Theorem upsert_is_update_or_create s id r :
  (is_Some (animals s !! id) → UpsertAnimal id r s = UpdateAnimal id r s) ∧
  (animals s !! id = None → id ≠ 0 →
   UpsertAnimal id r s = CreateAnimal (set_ID r id) s).
Proof.
  split.
  - intros [x Hin]. unfold UpsertAnimal, UpdateAnimal. by rewrite Hin.
  - intros Hout Hnz. by rewrite CreateAnimal_fresh.
Qed.

Lemma upsert_is_update_or_create_witness :
  (is_Some (animals seeded_store !! 1) ∧
   UpsertAnimal 1 cat seeded_store = UpdateAnimal 1 cat seeded_store) ∧
  (animals seeded_store !! 55 = None ∧ 55 ≠ 0 ∧
   UpsertAnimal 55 cat seeded_store = CreateAnimal (set_ID cat 55) seeded_store).
Proof.
  assert (Hin : is_Some (animals seeded_store !! 1))
    by (exists lion; vm_compute; reflexivity).
  assert (Hout : animals seeded_store !! 55 = None) by (vm_compute; reflexivity).
  assert (Hnz : 55 ≠ 0) by lia.
  destruct (upsert_is_update_or_create seeded_store 1 cat) as [Hupd _].
  destruct (upsert_is_update_or_create seeded_store 55 cat) as [_ Hcre].
  split.
  - split; [exact Hin | exact (Hupd Hin)].
  - split; [exact Hout |]. split; [exact Hnz | exact (Hcre Hout Hnz)].
Defined.

(** The last write to an id wins: two [UpsertAnimal] calls on one id leave
    the store as the second alone would, and so do two [UpdateAnimal] calls
    on an id that is present. *)
Theorem last_write_wins s id r1 r2 :
  (call e1 <- UpsertAnimal id r1 ;; UpsertAnimal id r2) s = UpsertAnimal id r2 s ∧
  (is_Some (animals s !! id) →
   (call e1 <- UpdateAnimal id r1 ;; UpdateAnimal id r2) s = UpdateAnimal id r2 s).
Proof.
  split.
  - unfold bind, UpsertAnimal. simpl. by rewrite insert_insert_eq.
  - intros [x Hin]. unfold bind, UpdateAnimal. rewrite Hin. simpl.
    rewrite lookup_insert_eq. simpl. by rewrite insert_insert_eq.
Qed.

Lemma last_write_wins_witness :
  is_Some (animals seeded_store !! 1) ∧
  (call e1 <- UpdateAnimal 1 cat ;; UpdateAnimal 1 grizzly) seeded_store =
    UpdateAnimal 1 grizzly seeded_store.
Proof.
  assert (Hin : is_Some (animals seeded_store !! 1))
    by (exists lion; vm_compute; reflexivity).
  split; [exact Hin |].
  exact (proj2 (last_write_wins seeded_store 1 cat grizzly) Hin).
Defined.

(** * Runs of zero-id creates *)

Lemma create_each_step r rs s :
  create_each (r :: rs) s =
    ((CreateAnimal r s).1 :: (create_each rs (CreateAnimal r s).2).1,
     (create_each rs (CreateAnimal r s).2).2).
Proof.
  simpl. unfold bind, ret.
  destruct (CreateAnimal r s) as [e s1]. simpl.
  by destruct (create_each rs s1) as [es s2].
Qed.

(** Records created with [ID] 0 get consecutive ids: as long as the counter
    does not pass the largest [int], a run of such creates returns no error
    and leaves the counter advanced by the number of records; afterwards
    the map holds, under key [nextID + i], the i-th record (counting from
    0) with that key as its [ID] and its name, class and legs as given, and
    holds under every key outside that range what it held before. *)
Theorem auto_ids_count_up rs : ∀ s,
  Forall (λ r, ID r = 0) rs →
  GoInt.min_int ≤ nextID s →
  nextID s + Z.of_nat (length rs) ≤ GoInt.max_int →
  (create_each rs s).1 = replicate (length rs) None ∧
  created_records rs s = imap (λ i r, set_ID r (nextID s + Z.of_nat i)) rs ∧
  nextID (create_each rs s).2 = nextID s + Z.of_nat (length rs) ∧
  (∀ (i : nat) r, rs !! i = Some r →
     animals (create_each rs s).2 !! (nextID s + Z.of_nat i) =
       Some {| ID := nextID s + Z.of_nat i; Name := Name r;
               Class_ := Class_ r; Legs := Legs r |}) ∧
  (∀ k, k < nextID s ∨ nextID s + Z.of_nat (length rs) ≤ k →
     animals (create_each rs s).2 !! k = animals s !! k).
Proof.
  induction rs as [| r rs IH]; intros s Hzero Hmin Hmax.
  - simpl. split; [done |]. split; [done |]. split; [lia |].
    split; [by intros i r Hi | done].
  - apply Forall_cons in Hzero as [Hr Hrs].
    rewrite create_each_step. simpl in Hmax |- *.
    rewrite (CreateAnimal_zero s r Hr). simpl.
    assert (Hincr : GoInt.incr (nextID s) = nextID s + 1)
      by (apply incr_no_overflow; lia).
    destruct (IH {| animals := <[nextID s := set_ID r (nextID s)]> (animals s);
                    nextID := GoInt.incr (nextID s) |} Hrs)
      as (Herrs & Hrecs & Hnext & Hheld & Hframe); simpl; try lia.
    simpl in Hrecs, Hnext, Hheld, Hframe.
    rewrite Hincr in Hheld, Hframe.
    rewrite Herrs, Hrecs, Hnext, Hincr.
    split; [done |]. split; [| split; [lia | split]].
    + unfold stored_form. rewrite decide_True by done.
      f_equal; [f_equal; lia |].
      apply imap_ext. intros i x _. simpl. f_equal. lia.
    + intros [| i] r' Hi; simpl in Hi.
      * injection Hi as <-. rewrite Hframe by lia.
        replace (nextID s + Z.of_nat 0) with (nextID s) by lia.
        by rewrite lookup_insert_eq.
      * replace (nextID s + Z.of_nat (S i)) with (nextID s + 1 + Z.of_nat i)
          by lia.
        by apply Hheld.
    + intros k Hk. rewrite Hframe by lia. apply lookup_insert_ne. lia.
Qed.

Lemma auto_ids_count_up_witness :
  Forall (λ r, ID r = 0) [cat; grizzly] ∧
  GoInt.min_int ≤ nextID NewInMemoryAnimalStore ∧
  nextID NewInMemoryAnimalStore + Z.of_nat (length [cat; grizzly]) ≤ GoInt.max_int ∧
  (create_each [cat; grizzly] NewInMemoryAnimalStore).1 = [None; None] ∧
  nextID (create_each [cat; grizzly] NewInMemoryAnimalStore).2 = 3 ∧
  animals (create_each [cat; grizzly] NewInMemoryAnimalStore).2 !! 1 =
    Some (mkAnimal 1 "cat" "mammal" 4) ∧
  animals (create_each [cat; grizzly] NewInMemoryAnimalStore).2 !! 2 =
    Some (mkAnimal 2 "grizzly bear" "mammal" 4) ∧
  animals (create_each [cat; grizzly] NewInMemoryAnimalStore).2 !! 3 = None.
Proof.
  assert (Hzero : Forall (λ r, ID r = 0) [cat; grizzly])
    by (repeat constructor).
  assert (Hmin : GoInt.min_int ≤ nextID NewInMemoryAnimalStore)
    by (vm_compute; discriminate).
  assert (Hmax : nextID NewInMemoryAnimalStore + Z.of_nat (length [cat; grizzly])
                 ≤ GoInt.max_int) by (vm_compute; discriminate).
  destruct (auto_ids_count_up [cat; grizzly] NewInMemoryAnimalStore Hzero Hmin Hmax)
    as (Herrs & _ & Hnext & Hheld & Hframe).
  split; [exact Hzero |]. split; [exact Hmin |]. split; [exact Hmax |].
  split; [exact Herrs |]. split; [exact Hnext |].
  split; [exact (Hheld 0%nat cat eq_refl) |].
  split; [exact (Hheld 1%nat grizzly eq_refl) |].
  rewrite (Hframe 3) by (right; simpl; lia). reflexivity.
Defined.

(** * What the listing holds *)

(** In a store where every record sits under its own id, which is every
    store the calls can produce, a successful [GetAllAnimals] leaves the
    store as it is and returns every stored record once: a record is in
    the returned slice exactly when [GetAnimalByID] on its id returns it, no
    two returned records share an id, and the slice is as long as the map
    is large. *)
Theorem listing_matches_lookups range s l :
  range_visits_all range →
  keys_match_ids s →
  (GetAllAnimals range s).1 = Ok l →
  (GetAllAnimals range s).2 = s ∧
  (∀ a, a ∈ l ↔ GetAnimalByID (ID a) s = (Ok a, s)) ∧
  NoDup (ID <$> l) ∧
  length l = size (animals s).
Proof.
  intros Hrange Hinv. unfold GetAllAnimals.
  case_decide as Hsize; [done |]. simpl. intros [= <-].
  rewrite range_loop_values. simpl.
  assert (Hids : ID <$> (map_to_list (animals s)).*2 = (map_to_list (animals s)).*1).
  { rewrite <- list_fmap_compose. apply list_fmap_ext.
    intros i [k a] Hlook. simpl.
    apply list_elem_of_lookup_2, elem_of_map_to_list in Hlook. by apply Hinv. }
  split; [done |]. split; [| split].
  - intros a. rewrite (Hrange (animals s)). unfold GetAnimalByID. split.
    + intros ([k a'] & -> & Hin%elem_of_map_to_list)%list_elem_of_fmap.
      simpl. pose proof (Hinv _ _ Hin) as ->. by rewrite Hin.
    + destruct (animals s !! ID a) as [a'|] eqn:Hlook; [| done].
      intros [= ->]. apply list_elem_of_fmap. exists (ID a, a).
      split; [done |]. by apply elem_of_map_to_list.
  - rewrite (Hrange (animals s)), Hids. apply NoDup_fst_map_to_list.
  - rewrite (Hrange (animals s)), length_fmap. apply length_map_to_list.
Qed.

Lemma listing_matches_lookups_witness :
  range_visits_all map_to_list ∧ keys_match_ids seeded_store ∧
  ∃ l, (GetAllAnimals map_to_list seeded_store).1 = Ok l ∧
       (lion ∈ l ↔ GetAnimalByID (ID lion) seeded_store = (Ok lion, seeded_store)) ∧
       NoDup (ID <$> l) ∧ length l = 3%nat.
Proof.
  assert (Hrange : range_visits_all map_to_list) by (intros m; reflexivity).
  split; [exact Hrange |]. split; [exact keys_match_ids_seeded |].
  eexists. split; [vm_compute; reflexivity |].
  destruct (listing_matches_lookups map_to_list seeded_store _ Hrange
              keys_match_ids_seeded eq_refl) as (_ & Hmem & Hnodup & Hlen).
  split; [exact (Hmem lion) |]. split; [exact Hnodup | exact Hlen].
Defined.

(** * The handlers, request by request *)

(** The message the list handler looks for is the message of one error
    only. *)
Lemma Error_no_animals e : Error e = "no animals found" ↔ e = ErrNoAnimals.
Proof. destruct e; simpl; split; (done || discriminate). Qed.

Lemma getAnimalsHandler_eq range r s :
  getAnimalsHandler (store := InMemory range) r s =
    if decide (size (animals s) = 0%nat) then
      (http_Error "No animals found in the system" StatusNotFound, s)
    else
      ({| status := StatusOK;
          body := JSON_animals (range (animals s)).*2 |}, s).
Proof.
  unfold getAnimalsHandler, bind, ret. simpl. unfold GetAllAnimals.
  case_decide; [done |]. by rewrite range_loop_values.
Qed.

Lemma getAnimalHandler_eq range b id s :
  getAnimalHandler (store := InMemory range) (mkRequest (Some id) b) s =
    match animals s !! id with
    | Some animal => ({| status := StatusOK; body := JSON_animal animal |}, s)
    | None => (http_Error (Error (ErrNotFound id)) StatusNotFound, s)
    end.
Proof.
  unfold getAnimalHandler, bind, ret. simpl. unfold GetAnimalByID.
  by destruct (animals s !! id).
Qed.

Lemma deleteAnimalHandler_eq range b id s :
  deleteAnimalHandler (store := InMemory range) (mkRequest (Some id) b) s =
    match animals s !! id with
    | Some _ =>
        ({| status := StatusNoContent; body := Empty |},
         {| animals := delete id (animals s); nextID := nextID s |})
    | None => (http_Error (Error (ErrNotFoundForDeletion id)) StatusNotFound, s)
    end.
Proof.
  unfold deleteAnimalHandler, bind, ret. simpl. unfold DeleteAnimal.
  by destruct (animals s !! id).
Qed.

Lemma createAnimalHandler_eq range pid r s :
  ID r ≠ 0 →
  createAnimalHandler (store := InMemory range) (mkRequest pid (Some r)) s =
    match animals s !! ID r with
    | Some _ =>
        (http_Error ("Animal with ID " +:+ pretty (ID r) +:+ " already exists")
           StatusConflict, s)
    | None =>
        ({| status := StatusCreated; body := JSON_animal r |},
         {| animals := <[ID r := r]> (animals s); nextID := nextID s |})
    end.
Proof.
  intros Hnz. destruct (animals s !! ID r) as [x|] eqn:Hlook.
  - by eapply createAnimalHandler_present.
  - by apply createAnimalHandler_absent.
Qed.

Lemma updateAnimalHandler_eq range id b s :
  updateAnimalHandler (store := InMemory range) (mkRequest (Some id) (Some b)) s =
    ({| status := match animals s !! id with
                  | Some _ => StatusOK
                  | None => StatusCreated
                  end;
        body := JSON_animal (set_ID b id) |},
     {| animals := <[id := set_ID b id]> (animals s); nextID := nextID s |}).
Proof.
  destruct (animals s !! id) as [x|] eqn:Hlook.
  - erewrite updateAnimalHandler_present by done.
    unfold UpdateAnimal. by rewrite Hlook.
  - by rewrite updateAnimalHandler_absent.
Qed.

Ltac case_request r :=
  let pid := fresh "pid" in
  let b := fresh "b" in
  destruct r as [[pid|] [b|]].

(** Whatever implements the store: a handler answers 400 exactly when the
    request is malformed for its route (path id that does not parse, body
    that does not decode, or for POST a decoded id of 0), and then the store
    is as it was, no method of it having been called. *)
Theorem bad_request_iff_malformed {S : Type} `{store : AnimalStore S}
    (rt : route) (r : Request) (s : S) :
  (status (handler_of rt r s).1 = StatusBadRequest ↔ malformed rt r) ∧
  (malformed rt r → (handler_of rt r s).2 = s).
Proof.
  destruct rt; simpl.
  - unfold getAnimalsHandler, bind, ret.
    destruct (store_GetAllAnimals s) as [[all|e] s1]; simpl;
      [| case_decide]; (split; [split |]; done).
  - unfold getAnimalHandler, bind, ret. case_request r; simpl;
      try (split; [split |]; done);
      destruct (store_GetAnimalByID pid s) as [[a|e] s1]; simpl;
      (split; [split |]; done).
  - unfold createAnimalHandler, bind, ret.
    assert (Hbody : ∀ pid b, decoded_body (mkRequest pid (Some b)) = None ∨
              (∃ animal, decoded_body (mkRequest pid (Some b)) = Some animal ∧
                         ID animal = 0) ↔ ID b = 0).
    { intros pid b. simpl. split; [| by eauto].
      intros [? | (animal & [= <-] & ?)]; done. }
    destruct r as [pid [b|]]; [| simpl; split; [split |]; auto].
    rewrite Hbody. simpl. case_decide as Hz; simpl; [by split |].
    destruct (store_GetAnimalByID (ID b) s) as [[a|e] s1]; simpl;
      [by split |].
    destruct (store_CreateAnimal b s1) as [[e'|] s2]; simpl; by split.
  - unfold updateAnimalHandler, bind, ret. case_request r; simpl;
      try (split; [split |]; by auto).
    assert (Hno : ¬ (Some pid = None ∨ Some b = None)) by (intros [?|?]; done).
    destruct (store_GetAnimalByID pid s) as [[a|e] s1]; simpl.
    + destruct (store_UpdateAnimal pid (set_ID b pid) s1) as [[e'|] s2]; simpl;
        (split; [split |]; done).
    + destruct (store_UpsertAnimal pid (set_ID b pid) s1) as [[e'|] s2]; simpl;
        (split; [split |]; done).
  - unfold deleteAnimalHandler, bind, ret. case_request r; simpl;
      try (split; [split |]; done);
      destruct (store_DeleteAnimal pid s) as [[e|] s1]; simpl;
      (split; [split |]; done).
Qed.

Lemma bad_request_iff_malformed_witness :
  malformed RouteCreateAnimal (mkRequest None (Some cat)) ∧
  status (serve map_to_list RouteCreateAnimal (mkRequest None (Some cat))
            seeded_store).1 = 400 ∧
  (serve map_to_list RouteCreateAnimal (mkRequest None (Some cat))
     seeded_store).2 = seeded_store.
Proof.
  assert (Hbad : malformed RouteCreateAnimal (mkRequest None (Some cat)))
    by (right; exists cat; split; reflexivity).
  destruct (bad_request_iff_malformed (store := InMemory map_to_list)
              RouteCreateAnimal (mkRequest None (Some cat)) seeded_store)
    as [Hstatus Hstore].
  split; [exact Hbad |].
  split; [exact (proj2 Hstatus Hbad) | exact (Hstore Hbad)].
Defined.

Ltac solve_elem_of :=
  solve [repeat first [apply list_elem_of_here | apply list_elem_of_further]].

(** Served by the in-memory store, each handler answers with one of the
    status codes written for its own outcomes; the branches that answer 500
    are never taken. *)
Theorem serve_statuses range rt r s :
  status (serve range rt r s).1 ∈ statuses_of rt.
Proof.
  unfold serve. destruct rt; simpl.
  - rewrite getAnimalsHandler_eq. case_decide; simpl; solve_elem_of.
  - case_request r; try (simpl; solve_elem_of);
      rewrite getAnimalHandler_eq; destruct (animals s !! pid); simpl;
      solve_elem_of.
  - destruct r as [pid [b|]]; [| simpl; solve_elem_of].
    destruct (decide (ID b = 0)) as [Hz|Hnz].
    + unfold createAnimalHandler. simpl. rewrite decide_True by done.
      simpl. solve_elem_of.
    + rewrite createAnimalHandler_eq by done.
      destruct (animals s !! ID b); simpl; solve_elem_of.
  - case_request r; try (simpl; solve_elem_of).
    rewrite updateAnimalHandler_eq. simpl.
    destruct (animals s !! pid); solve_elem_of.
  - case_request r; try (simpl; solve_elem_of);
      rewrite deleteAnimalHandler_eq; destruct (animals s !! pid); simpl;
      solve_elem_of.
Qed.

(** Served by the in-memory store, the two GET handlers never change the
    store, and no handler changes it when it answers with an error status
    (400 and above). *)
Theorem error_answers_keep_store range rt r s :
  rt = RouteGetAnimals ∨ rt = RouteGetAnimal ∨
    400 ≤ status (serve range rt r s).1 →
  (serve range rt r s).2 = s.
Proof.
  unfold serve. destruct rt; simpl.
  - intros _. rewrite getAnimalsHandler_eq. by case_decide.
  - intros _. case_request r; try done;
      rewrite getAnimalHandler_eq; by destruct (animals s !! pid).
  - intros [? | [? | Hstatus]]; try done. revert Hstatus.
    destruct r as [pid [b|]]; [| done].
    destruct (decide (ID b = 0)) as [Hz|Hnz].
    + unfold createAnimalHandler. simpl. by rewrite decide_True.
    + rewrite createAnimalHandler_eq by done.
      destruct (animals s !! ID b); simpl; [done |].
      unfold StatusCreated. lia.
  - intros [? | [? | Hstatus]]; try done. revert Hstatus.
    case_request r; try done.
    rewrite updateAnimalHandler_eq. simpl.
    destruct (animals s !! pid); unfold StatusOK, StatusCreated; lia.
  - intros [? | [? | Hstatus]]; try done. revert Hstatus.
    case_request r; try done;
      rewrite deleteAnimalHandler_eq; destruct (animals s !! pid); simpl;
      try done; unfold StatusNoContent; lia.
Qed.

Lemma error_answers_keep_store_witness :
  400 ≤ status (serve map_to_list RouteDeleteAnimal (mkRequest (Some 55) None)
                  seeded_store).1 ∧
  (serve map_to_list RouteDeleteAnimal (mkRequest (Some 55) None)
     seeded_store).2 = seeded_store.
Proof.
  assert (Hstatus :
    400 ≤ status (serve map_to_list RouteDeleteAnimal (mkRequest (Some 55) None)
                    seeded_store).1) by (vm_compute; discriminate).
  split; [exact Hstatus |].
  exact (error_answers_keep_store map_to_list RouteDeleteAnimal
           (mkRequest (Some 55) None) seeded_store (or_intror (or_intror Hstatus))).
Defined.

(** What a served request does to the store is nothing, or one call of
    [UpsertAnimal], [DeleteAnimal], or [CreateAnimal] with a non-zero id. *)
Lemma serve_store range rt r s :
  (serve range rt r s).2 = s ∨
  ∃ o, (serve range rt r s).2 = (run_op o s).2 ∧
       nextID (run_op o s).2 = nextID s.
Proof.
  unfold serve. destruct rt; simpl.
  - left. rewrite getAnimalsHandler_eq. by case_decide.
  - left. case_request r; try done;
      rewrite getAnimalHandler_eq; by destruct (animals s !! pid).
  - destruct r as [pid [b|]]; [| by left].
    destruct (decide (ID b = 0)) as [Hz|Hnz].
    + left. unfold createAnimalHandler. simpl. by rewrite decide_True.
    + rewrite createAnimalHandler_eq by done.
      destruct (animals s !! ID b) eqn:Hlook; [by left |].
      right. exists (Create b). simpl. by rewrite CreateAnimal_fresh.
  - case_request r; try by left.
    right. exists (Upsert pid b). by rewrite updateAnimalHandler_eq.
  - case_request r; try (by left);
      rewrite deleteAnimalHandler_eq;
      destruct (animals s !! pid) eqn:Hlook; try (by left);
      right; exists (Delete pid); simpl; unfold DeleteAnimal; by rewrite Hlook.
Qed.

(** While the service runs, one request at a time: the store is in a state
    the store calls can produce, every record sits under its own id, and the
    counter for assigned ids is still 1, no request ever reaching the branch
    of [CreateAnimal] that assigns an id. *)
Theorem served_invariants s :
  served s → reachable s ∧ keys_match_ids s ∧ nextID s = 1.
Proof.
  induction 1 as [| range rt r s Hs (Hreach & Hkeys & Hnext)].
  - split; [apply reachable_seeded_store |].
    split; [apply keys_match_ids_seeded | reflexivity].
  - destruct (serve_store range rt r s) as [-> | (o & -> & Hsame)]; [done |].
    split; [by apply reachable_step |].
    split; [by apply run_op_keys_match_ids | congruence].
Qed.

Lemma served_invariants_witness :
  served (serve map_to_list RouteUpdateAnimal
            (mkRequest (Some 55) (Some grizzly)) seeded_store).2 ∧
  reachable (serve map_to_list RouteUpdateAnimal
               (mkRequest (Some 55) (Some grizzly)) seeded_store).2 ∧
  keys_match_ids (serve map_to_list RouteUpdateAnimal
                    (mkRequest (Some 55) (Some grizzly)) seeded_store).2 ∧
  nextID (serve map_to_list RouteUpdateAnimal
            (mkRequest (Some 55) (Some grizzly)) seeded_store).2 = 1.
Proof.
  assert (Hserved : served (serve map_to_list RouteUpdateAnimal
                              (mkRequest (Some 55) (Some grizzly)) seeded_store).2)
    by (apply served_request, served_seeded).
  split; [exact Hserved |]. exact (served_invariants _ Hserved).
Defined.

(** * Requests in sequence *)

(** A POST of a record with a new non-zero id is answered 201 with the
    record, and a GET of that id right after is answered 200 with the same
    record. *)
Theorem post_then_get range s pid b r :
  ID r ≠ 0 →
  animals s !! ID r = None →
  (call posted <- serve range RouteCreateAnimal (mkRequest pid (Some r)) ;;
   call got <- serve range RouteGetAnimal (mkRequest (Some (ID r)) b) ;;
   ret (posted, got)) s =
    (({| status := StatusCreated; body := JSON_animal r |},
      {| status := StatusOK; body := JSON_animal r |}),
     {| animals := <[ID r := r]> (animals s); nextID := nextID s |}).
Proof.
  intros Hnz Hfresh. unfold bind, ret, serve. simpl.
  rewrite createAnimalHandler_eq by done. rewrite Hfresh.
  rewrite getAnimalHandler_eq. simpl. by rewrite lookup_insert_eq.
Qed.

Lemma post_then_get_witness :
  ID panda ≠ 0 ∧ animals seeded_store !! ID panda = None ∧
  (call posted <- serve map_to_list RouteCreateAnimal (mkRequest None (Some panda)) ;;
   call got <- serve map_to_list RouteGetAnimal (mkRequest (Some 101) None) ;;
   ret (posted, got)) seeded_store =
    (({| status := 201; body := JSON_animal panda |},
      {| status := 200; body := JSON_animal panda |}),
     {| animals := <[101 := panda]> (animals seeded_store); nextID := 1 |}).
Proof.
  assert (Hnz : ID panda ≠ 0) by (simpl; lia).
  assert (Hfresh : animals seeded_store !! ID panda = None)
    by (vm_compute; reflexivity).
  split; [exact Hnz |]. split; [exact Hfresh |].
  exact (post_then_get map_to_list seeded_store None None panda Hnz Hfresh).
Defined.

(** After a POST with a non-zero id, whatever it was answered, a second POST
    with the same id is answered 409 and leaves the store as the first left
    it; the record of the second request is not stored. *)
Theorem post_again_conflicts range s pid pid' r r' :
  ID r ≠ 0 →
  ID r' = ID r →
  let s1 := (serve range RouteCreateAnimal (mkRequest pid (Some r)) s).2 in
  serve range RouteCreateAnimal (mkRequest pid' (Some r')) s1 =
    (http_Error ("Animal with ID " +:+ pretty (ID r) +:+ " already exists")
       StatusConflict, s1).
Proof.
  intros Hnz Hid s1. subst s1. unfold serve. simpl.
  assert (Hnz' : ID r' ≠ 0) by congruence.
  rewrite (createAnimalHandler_eq range pid r s Hnz).
  destruct (animals s !! ID r) as [x|] eqn:Hlook; simpl.
  - rewrite createAnimalHandler_eq by done. by rewrite Hid, Hlook.
  - rewrite createAnimalHandler_eq by done. simpl.
    by rewrite Hid, lookup_insert_eq.
Qed.

Lemma post_again_conflicts_witness :
  ID panda ≠ 0 ∧ ID (set_ID cat 101) = ID panda ∧
  serve map_to_list RouteCreateAnimal (mkRequest None (Some (set_ID cat 101)))
    (serve map_to_list RouteCreateAnimal (mkRequest None (Some panda))
       seeded_store).2 =
    (http_Error "Animal with ID 101 already exists" 409,
     (serve map_to_list RouteCreateAnimal (mkRequest None (Some panda))
        seeded_store).2).
Proof.
  assert (Hnz : ID panda ≠ 0) by (simpl; lia).
  assert (Hid : ID (set_ID cat 101) = ID panda) by reflexivity.
  split; [exact Hnz |]. split; [exact Hid |].
  exact (post_again_conflicts map_to_list seeded_store None None panda
           (set_ID cat 101) Hnz Hid).
Defined.


(** After a DELETE of an id, whatever it was answered, a GET of the id and
    a second DELETE of it are both answered 404, with the store's own error
    text, and change nothing. *)
Theorem delete_then_not_found range s id b b' b'' :
  let s1 := (serve range RouteDeleteAnimal (mkRequest (Some id) b) s).2 in
  serve range RouteGetAnimal (mkRequest (Some id) b') s1 =
    (http_Error ("animal with ID " +:+ pretty id +:+ " not found")
       StatusNotFound, s1) ∧
  serve range RouteDeleteAnimal (mkRequest (Some id) b'') s1 =
    (http_Error ("animal with ID " +:+ pretty id +:+ " not found for deletion")
       StatusNotFound, s1).
Proof.
  intros s1. subst s1. unfold serve. simpl.
  rewrite (deleteAnimalHandler_eq range b id s).
  assert (Hgone : animals
            (match animals s !! id with
             | Some _ =>
                 ({| status := StatusNoContent; body := Empty |},
                  {| animals := delete id (animals s); nextID := nextID s |})
             | None =>
                 (http_Error (Error (ErrNotFoundForDeletion id)) StatusNotFound, s)
             end).2 !! id = None).
  { destruct (animals s !! id) eqn:Hlook; simpl; [apply lookup_delete_eq | done]. }
  rewrite getAnimalHandler_eq, deleteAnimalHandler_eq. by rewrite Hgone.
Qed.

(** The list handler never changes the store; on a store with no records
    it answers 404 with its own text, and otherwise 200 with every stored
    record once, in the order the runtime visits the map. *)
Theorem list_handler_answers range r s :
  range_visits_all range →
  (serve range RouteGetAnimals r s).2 = s ∧
  (animals s = ∅ →
   (serve range RouteGetAnimals r s).1 =
     http_Error "No animals found in the system" StatusNotFound) ∧
  (animals s ≠ ∅ →
   ∃ all, (serve range RouteGetAnimals r s).1 =
            {| status := StatusOK; body := JSON_animals all |} ∧
          all ≡ₚ (map_to_list (animals s)).*2).
Proof.
  intros Hrange. unfold serve. simpl. rewrite getAnimalsHandler_eq.
  case_decide as Hsize.
  - apply map_size_empty_iff in Hsize. by repeat split.
  - apply map_size_non_empty_iff in Hsize. repeat split; [done |].
    intros _. eexists. split; [reflexivity |]. by rewrite (Hrange (animals s)).
Qed.

Lemma list_handler_answers_witness :
  range_visits_all map_to_list ∧
  (serve map_to_list RouteGetAnimals (mkRequest None None)
     NewInMemoryAnimalStore).1 =
    http_Error "No animals found in the system" 404 ∧
  ∃ all, (serve map_to_list RouteGetAnimals (mkRequest None None)
            seeded_store).1 = {| status := 200; body := JSON_animals all |} ∧
         all ≡ₚ (map_to_list (animals seeded_store)).*2.
Proof.
  assert (Hrange : range_visits_all map_to_list) by (intros m; reflexivity).
  assert (Hne : animals seeded_store ≠ ∅).
  { intros Hempty. assert (Hlook : animals seeded_store !! 1 = Some lion)
      by (vm_compute; reflexivity).
    rewrite Hempty in Hlook. by rewrite lookup_empty in Hlook. }
  split; [exact Hrange |]. split.
  - exact (proj1 (proj2 (list_handler_answers map_to_list (mkRequest None None)
                           NewInMemoryAnimalStore Hrange)) eq_refl).
  - exact (proj2 (proj2 (list_handler_answers map_to_list (mkRequest None None)
                           seeded_store Hrange)) Hne).
Defined.

(** * Two requests at once

    The handlers for POST and PUT call the store twice, and the mutex is
    free between the two calls. *)

Lemma put_with_interleaved_call other s id b :
  updateAnimalHandler (store := SharedWith other)
    (mkRequest (Some id) (Some b)) s =
    let s1 := (other s).2 in
    match animals s !! id, animals s1 !! id with
    | Some _, None =>
        (http_Error (Error (ErrNotFoundForUpdate id)) StatusInternalServerError, s1)
    | Some _, Some _ =>
        ({| status := StatusOK; body := JSON_animal (set_ID b id) |},
         {| animals := <[id := set_ID b id]> (animals s1); nextID := nextID s1 |})
    | None, _ =>
        ({| status := StatusCreated; body := JSON_animal (set_ID b id) |},
         {| animals := <[id := set_ID b id]> (animals s1); nextID := nextID s1 |})
    end.
Proof.
  unfold updateAnimalHandler. simpl.
  unfold bind, ret, GetAnimalByID, UpdateAnimal, UpsertAnimal.
  destruct (animals s !! id) as [x|]; destruct (other s) as [e s1]; simpl.
  - by destruct (animals s1 !! id).
  - by destruct (animals s1 !! id).
Qed.

Lemma post_with_interleaved_call other s pid r :
  ID r ≠ 0 →
  createAnimalHandler (store := SharedWith other) (mkRequest pid (Some r)) s =
    let s1 := (other s).2 in
    match animals s !! ID r, animals s1 !! ID r with
    | Some _, _ =>
        (http_Error ("Animal with ID " +:+ pretty (ID r) +:+ " already exists")
           StatusConflict, s1)
    | None, Some _ =>
        (http_Error (Error (ErrAlreadyExists (ID r))) StatusInternalServerError, s1)
    | None, None =>
        ({| status := StatusCreated; body := JSON_animal r |},
         {| animals := <[ID r := r]> (animals s1); nextID := nextID s1 |})
    end.
Proof.
  intros Hnz. unfold createAnimalHandler. simpl.
  rewrite decide_False by done.
  unfold bind, ret, GetAnimalByID, CreateAnimal.
  destruct (animals s !! ID r) as [x|]; destruct (other s) as [e s1]; simpl.
  - by destruct (animals s1 !! ID r).
  - rewrite decide_False by done.
    by destruct (animals s1 !! ID r).
Qed.

(** When another request deletes the id between a PUT's lookup and its
    update, the PUT is answered 500 with the store's not-found-for-update
    text, and the record stays deleted. When another request creates the id
    between a PUT's lookup and its upsert, the PUT is answered 201 and its
    record replaces the one just created. *)
Theorem put_races s id b :
  (is_Some (animals s !! id) →
   updateAnimalHandler (store := SharedWith (DeleteAnimal id))
     (mkRequest (Some id) (Some b)) s =
     (http_Error ("animal with ID " +:+ pretty id +:+ " not found for update")
        StatusInternalServerError,
      {| animals := delete id (animals s); nextID := nextID s |})) ∧
  (∀ r', animals s !! id = None → id ≠ 0 → ID r' = id →
   updateAnimalHandler (store := SharedWith (CreateAnimal r'))
     (mkRequest (Some id) (Some b)) s =
     ({| status := StatusCreated; body := JSON_animal (set_ID b id) |},
      {| animals := <[id := set_ID b id]> (animals s); nextID := nextID s |})).
Proof.
  split.
  - intros [x Hin]. rewrite put_with_interleaved_call. simpl.
    unfold DeleteAnimal. rewrite Hin. simpl. by rewrite lookup_delete_eq.
  - intros r' Hout Hnz Hid. rewrite put_with_interleaved_call. simpl.
    rewrite Hout. subst id. rewrite CreateAnimal_fresh by done. simpl.
    by rewrite insert_insert_eq.
Qed.

Lemma put_races_witness :
  (is_Some (animals seeded_store !! 1) ∧
   updateAnimalHandler (store := SharedWith (DeleteAnimal 1))
     (mkRequest (Some 1) (Some grizzly)) seeded_store =
     (http_Error "animal with ID 1 not found for update" 500,
      {| animals := delete 1 (animals seeded_store); nextID := 1 |})) ∧
  (animals seeded_store !! 101 = None ∧ 101 ≠ 0 ∧ ID panda = 101 ∧
   updateAnimalHandler (store := SharedWith (CreateAnimal panda))
     (mkRequest (Some 101) (Some grizzly)) seeded_store =
     ({| status := 201; body := JSON_animal (set_ID grizzly 101) |},
      {| animals := <[101 := set_ID grizzly 101]> (animals seeded_store);
         nextID := 1 |})).
Proof.
  assert (Hin : is_Some (animals seeded_store !! 1))
    by (exists lion; vm_compute; reflexivity).
  assert (Hout : animals seeded_store !! 101 = None) by (vm_compute; reflexivity).
  assert (Hnz : 101 ≠ 0) by lia.
  assert (Hid : ID panda = 101) by reflexivity.
  split.
  - split; [exact Hin |]. exact (proj1 (put_races seeded_store 1 grizzly) Hin).
  - split; [exact Hout |]. split; [exact Hnz |]. split; [exact Hid |].
    exact (proj2 (put_races seeded_store 101 grizzly) panda Hout Hnz Hid).
Defined.

(** When another request creates the same id between a POST's lookup and
    its create, the POST is answered 500, not 409, with the store's
    already-exists text, and the other request's record stays. *)
Theorem post_races s pid r r' :
  ID r ≠ 0 →
  ID r' = ID r →
  animals s !! ID r = None →
  createAnimalHandler (store := SharedWith (CreateAnimal r'))
    (mkRequest pid (Some r)) s =
    (http_Error ("animal with ID " +:+ pretty (ID r) +:+ " already exists")
       StatusInternalServerError,
     {| animals := <[ID r := r']> (animals s); nextID := nextID s |}).
Proof.
  intros Hnz Hid Hout. rewrite post_with_interleaved_call by done. simpl.
  rewrite Hout. rewrite CreateAnimal_fresh by congruence. simpl.
  by rewrite Hid, lookup_insert_eq.
Qed.

Lemma post_races_witness :
  ID panda ≠ 0 ∧ ID (set_ID cat 101) = ID panda ∧
  animals seeded_store !! ID panda = None ∧
  createAnimalHandler (store := SharedWith (CreateAnimal (set_ID cat 101)))
    (mkRequest None (Some panda)) seeded_store =
    (http_Error "animal with ID 101 already exists" 500,
     {| animals := <[101 := set_ID cat 101]> (animals seeded_store);
        nextID := 1 |}).
Proof.
  assert (Hnz : ID panda ≠ 0) by (simpl; lia).
  assert (Hid : ID (set_ID cat 101) = ID panda) by reflexivity.
  assert (Hout : animals seeded_store !! ID panda = None)
    by (vm_compute; reflexivity).
  split; [exact Hnz |]. split; [exact Hid |]. split; [exact Hout |].
  exact (post_races seeded_store None panda (set_ID cat 101) Hnz Hid Hout).
Defined.
